(** * Interception-storage model of [models.py]: embedding and properties

    The Python module [models.py] scores simulated storage trajectories
    against observations ([ssr]), defines the right-hand side of the
    interception-storage ODE ([interceptionModel]) and drives two
    integrators over an ensemble of parameter vectors
    ([interceptCostRK4], [interceptionModel_CF]).

    Numbers.  numpy works on IEEE doubles.  Here a finite double is an
    exact rational ([Qc]); rounding and overflow are not followed.  The
    one operation of the source that leaves the finite numbers in exact
    arithmetic is the division [S/cm] of [interceptionModel]; its result
    type [float_val] has a second constructor for the IEEE values
    [inf]/[nan] that numpy produces there (with a RuntimeWarning, not an
    exception).

    Arrays.  [ndarray] covers the shapes the module handles: numpy
    scalars and 0-d arrays, 1-d arrays and 2-d arrays.  Binary operators
    follow numpy's broadcasting rule.

    Errors.  Python exceptions are values of [exn]; a computation is an
    [outcome]. *)

From Stdlib Require Import QArith Qcanon Field Lia Sorted.
From stdpp Require Import base list numbers.

Open Scope Qc_scope.

(** ** Exact numbers *)

Definition qz (z : Z) : Qc := Q2Qc (inject_Z z).
Arguments qz z%_Z.

Definition qs (l : list Z) : list Qc := map qz l.

Definition Qcleb (x y : Qc) : bool := Qle_bool x y.
Definition Qcltb (x y : Qc) : bool := negb (Qle_bool y x).
Definition Qceqb (x y : Qc) : bool := Qeq_bool x y.

(** [np.maximum] on two finite numbers. *)
Definition Qcmax (x y : Qc) : Qc := if Qcleb x y then y else x.

(** A double as produced by the division of [interceptionModel]:
    finite, or one of [inf], [-inf], [nan]. *)
Inductive float_val : Type :=
| Finite (q : Qc)
| NonFinite.

(** numpy's [true_divide] on finite doubles under the default error
    state: a zero divisor gives [inf] or [nan], never an exception. *)
Definition np_divide (x y : Qc) : float_val :=
  if Qceqb y 0 then NonFinite else Finite (x / y).

(** finite * double: [inf] and [nan] absorb ([0 * inf] is [nan]). *)
Definition mul_fv (x : Qc) (y : float_val) : float_val :=
  match y with
  | Finite q => Finite (x * q)
  | NonFinite => NonFinite
  end.

(** finite - double. *)
Definition sub_fv (x : Qc) (y : float_val) : float_val :=
  match y with
  | Finite q => Finite (x - q)
  | NonFinite => NonFinite
  end.

(** ** Exceptions and outcomes *)

Inductive exn : Type :=
| ValueError      (* broadcasting failure, ambiguous truth value, np.interp argument errors *)
| IndexError      (* index out of bounds, too many indices *)
| AxisError       (* np.sum over an axis the array does not have *)
| TypeError       (* a call with the wrong number of arguments *)
| FloatingPointError.

Inductive outcome (A : Type) : Type :=
| Ok (a : A)
| Raise (e : exn)
| OutOfFuel.      (* a [while] loop still running when the fuel ran out *)

Arguments Ok {A} a.
Arguments Raise {A} e.
Arguments OutOfFuel {A}.

Global Instance outcome_ret : MRet outcome := fun _ a => Ok a.

Global Instance outcome_bind : MBind outcome := fun _ _ f m =>
  match m with
  | Ok a => f a
  | Raise e => Raise e
  | OutOfFuel => OutOfFuel
  end.

(** ** Arrays *)

Inductive ndarray (A : Type) : Type :=
| Scalar (x : A)                       (* shape () *)
| Vec (v : list A)                     (* shape (len v,) *)
| Mat (m : nat) (rows : list (list A)) (* shape (len rows, m) *).

Arguments Scalar {A} x.
Arguments Vec {A} v.
Arguments Mat {A} m rows.

(** Every row of a 2-d array has the declared width. *)
Definition wf_rows {A : Type} (m : nat) (rows : list (list A)) : Prop :=
  Forall (fun r => length r = m) rows.

Definition wf_nd {A : Type} (x : ndarray A) : Prop :=
  match x with
  | Mat m rows => wf_rows m rows
  | _ => True
  end.

Definition ndim {A : Type} (x : ndarray A) : nat :=
  match x with
  | Scalar _ => 0
  | Vec _ => 1
  | Mat _ _ => 2
  end.

(** The array seen as 2-d, missing leading axes having length 1. *)
Definition nrows {A : Type} (x : ndarray A) : nat :=
  match x with
  | Mat _ rows => length rows
  | _ => 1
  end.

Definition ncols {A : Type} (x : ndarray A) : nat :=
  match x with
  | Scalar _ => 1
  | Vec v => length v
  | Mat m _ => m
  end.

Definition as2d {A : Type} (x : ndarray A) : list (list A) :=
  match x with
  | Scalar a => [[a]]
  | Vec v => [v]
  | Mat _ rows => rows
  end.

(** [x.size] *)
Definition nd_size {A : Type} (x : ndarray A) : nat := (nrows x * ncols x)%nat.

(** numpy's rule for one axis: equal lengths, or one of them is 1. *)
Definition bdim (n1 n2 : nat) : option nat :=
  if (n1 =? n2)%nat then Some n1
  else if (n1 =? 1)%nat then Some n2
  else if (n2 =? 1)%nat then Some n1
  else None.

(** Stretch an axis of length 1 to length [n]. *)
Definition stretch {A : Type} (n : nat) (l : list A) : list A :=
  match l with
  | [a] => replicate n a
  | _ => l
  end.

Definition of2d {A : Type} (nd c : nat) (d : list (list A)) : ndarray A :=
  match nd, d with
  | 0%nat, [[a]] => Scalar a
  | 1%nat, [v] => Vec v
  | _, _ => Mat c d
  end.

(** An elementwise binary operator with broadcasting. *)
Definition broadcast2 {A B C : Type} (f : A -> B -> C)
    (x : ndarray A) (y : ndarray B) : outcome (ndarray C) :=
  match bdim (nrows x) (nrows y), bdim (ncols x) (ncols y) with
  | Some r, Some c =>
      let dx := stretch r (map (stretch c) (as2d x)) in
      let dy := stretch r (map (stretch c) (as2d y)) in
      Ok (of2d (ndim x `max` ndim y) c (zip_with (zip_with f) dx dy))
  | _, _ => Raise ValueError
  end.

Definition nd_map {A B : Type} (f : A -> B) (x : ndarray A) : ndarray B :=
  match x with
  | Scalar a => Scalar (f a)
  | Vec v => Vec (map f v)
  | Mat m rows => Mat m (map (map f) rows)
  end.

Definition np_subtract := broadcast2 Qcminus.
Definition np_multiply := broadcast2 Qcmult.
Definition np_add := broadcast2 Qcplus.

Definition Qcsum (l : list Qc) : Qc := foldr Qcplus 0 l.

(** [np.sum(x, axis=1)] *)
Definition np_sum_axis1 (x : ndarray Qc) : outcome (ndarray Qc) :=
  match x with
  | Mat _ rows => Ok (Vec (map Qcsum rows))
  | _ => Raise AxisError
  end.

(** ** [ssr] (lines 21-24) *)

Definition ssr (p d : ndarray Qc) : outcome (ndarray Qc * ndarray Qc) :=
  res ← np_subtract p d;
  sq ← np_multiply res res;
  s ← np_sum_axis1 sq;
  Ok (res, s).

(** ** Indexing, assignment, transposition *)

(** [x[i]] on a 1-d array. *)
Definition getitem (x : ndarray Qc) (i : nat) : outcome Qc :=
  match x with
  | Vec v => match v !! i with Some a => Ok a | None => Raise IndexError end
  | _ => Raise IndexError
  end.

(** Column [k] of a list of rows. *)
Definition column (k : nat) (rows : list (list Qc)) : list Qc :=
  map (fun r => default 0 (r !! k)) rows.

(** [x[:,k]] *)
Definition getcol (x : ndarray Qc) (k : nat) : outcome (ndarray Qc) :=
  match x with
  | Mat m rows =>
      if (k <? m)%nat then Ok (Vec (column k rows))
      else Raise IndexError
  | _ => Raise IndexError
  end.

(** [x[i,:]] *)
Definition getrow (x : ndarray Qc) (i : nat) : outcome (ndarray Qc) :=
  match x with
  | Mat _ rows => match rows !! i with Some r => Ok (Vec r) | None => Raise IndexError end
  | _ => Raise IndexError
  end.

(** [np.zeros((r, c))] *)
Definition np_zeros (r c : nat) : ndarray Qc := Mat c (replicate r (replicate c 0)).

(** The value assigned to a slice of length [n], broadcast to it. *)
Definition broadcast_to (n : nat) (v : ndarray Qc) : outcome (list Qc) :=
  match v with
  | Scalar a => Ok (replicate n a)
  | Vec u | Mat _ [u] =>
      if (length u =? n)%nat then Ok u
      else match u with [a] => Ok (replicate n a) | _ => Raise ValueError end
  | Mat _ _ => Raise ValueError
  end.

(** [x[j,:] = v] *)
Definition setrow (x : ndarray Qc) (j : nat) (v : ndarray Qc) : outcome (ndarray Qc) :=
  match x with
  | Mat m rows =>
      if (j <? length rows)%nat then
        r ← broadcast_to m v; Ok (Mat m (<[j:=r]> rows))
      else Raise IndexError
  | _ => Raise IndexError
  end.

(** [x[:,i] = v] *)
Definition setcol (x : ndarray Qc) (i : nat) (v : ndarray Qc) : outcome (ndarray Qc) :=
  match x with
  | Mat m rows =>
      if (i <? m)%nat then
        c ← broadcast_to (length rows) v;
        Ok (Mat m (zip_with (fun r a => <[i:=a]> r) rows c))
      else Raise IndexError
  | _ => Raise IndexError
  end.

(** [x.T]; a 0-d or 1-d array is its own transpose. *)
Definition transpose (x : ndarray Qc) : ndarray Qc :=
  match x with
  | Mat m rows =>
      Mat (length rows) (map (fun k => column k rows) (seq 0 m))
  | _ => x
  end.

(** [np.vstack((x, [t, s]))] for [x] of width 2. *)
Definition np_vstack (x : ndarray Qc) (row : list Qc) : ndarray Qc :=
  Mat (length row) (as2d x ++ [row]).

(** ** numpy functions used by the dynamics *)

(** [np.maximum(x, 0)] *)
Definition np_maximum0 (x : ndarray Qc) : ndarray Qc :=
  nd_map (fun a => Qcmax a 0) x.

(** [x > y] *)
Definition np_greater := broadcast2 (fun a b : Qc => Qcltb b a).

(** The truth value of an array in [if]: that of its only element;
    ambiguous (ValueError) for more than one element, and for none
    since numpy 2.2. *)
Definition truth (x : ndarray bool) : outcome bool :=
  match concat (as2d x) with
  | [b] => Ok b
  | _ => Raise ValueError
  end.

(** The interval scan of [np.interp] for one query [x], at the node
    [(x0, y0)] with the nodes [rest] to its right: the result on
    [x0 <= x < x1] is [y0] at the node and on the chord elsewhere; right
    of the last node it is the last value. *)
Fixpoint interp_scan (x x0 y0 : Qc) (rest : list (Qc * Qc)) : Qc :=
  match rest with
  | [] => y0
  | (x1, y1) :: rest' =>
      if Qcltb x x1 then
        if Qceqb x0 x then y0
        else (y1 - y0) / (x1 - x0) * (x - x0) + y0
      else interp_scan x x1 y1 rest'
  end.

(** [np.interp] at one query point: [fp[-1]] right of the samples,
    [fp[0]] left of them, the scan in between.  numpy finds the interval
    by bisection, which agrees with the scan when [xp] is increasing (the
    only case numpy documents). *)
Definition interp1 (xp fp : list Qc) (x : Qc) : Qc :=
  match zip xp fp with
  | [] => 0
  | (x0, y0) :: rest =>
      if Qcltb (List.last xp x0) x then List.last fp y0
      else if Qcltb x x0 then y0
      else interp_scan x x0 y0 rest
  end.

(** [np.interp(x, xp, fp)] *)
Definition np_interp (x xp fp : ndarray Qc) : outcome (ndarray Qc) :=
  match xp, fp with
  | Vec xs, Vec fs =>
      if (length xs =? 0)%nat then Raise ValueError
      else if negb (length fs =? length xs)%nat then Raise ValueError
      else Ok (nd_map (interp1 xs fs) x)
  | _, _ => Raise ValueError
  end.

(** ** [interceptionModel] (lines 85-113) *)

(** Lines 91-94: the map from raw parameters to physical coefficients
    [(am, bm, cm, dm)]. *)
Definition transform (a b c d : ndarray Qc)
    : ndarray Qc * ndarray Qc * ndarray Qc * ndarray Qc :=
  (a,
   nd_map (fun x => qz 999 * x + 1) b,
   nd_map (fun x => qz 5 * x) c,
   nd_map (fun x => qz 3 * x) d).

(** Lines 97 and 99: a forcing series [F] over the times [T], read at
    time [t] and floored at zero. *)
Definition forcing (t T F : ndarray Qc) : outcome (ndarray Qc) :=
  v ← np_interp t T F; Ok (np_maximum0 v).

(** Lines 104-107: the drainage term. *)
Definition drainage (bm S cm : ndarray Qc) : outcome (ndarray Qc) :=
  cond ← np_greater S cm;
  b ← truth cond;
  if b : bool then
    x ← np_subtract S cm; np_multiply bm x
  else Ok (Scalar 0).

Definition interceptionModel (t S T Pr E0 a b c d : ndarray Qc)
    : outcome (ndarray float_val) :=
  let '(am, bm, cm, dm) := transform a b c d in
  let S := np_maximum0 S in
  Pr_int ← forcing t T Pr;
  E0_int ← forcing t T E0;
  I ← np_multiply am Pr_int;
  D ← drainage bm S cm;
  dmE0 ← np_multiply dm E0_int;
  Sc ← broadcast2 np_divide S cm;
  E ← broadcast2 mul_fv dmE0 Sc;
  ID ← np_subtract I D;
  broadcast2 sub_fv ID E.

(** ** The integrators of module [rungekutta]

    [models.py] imports [rungekutta] and calls [rk.rk4] and [rk.rkf45];
    that module is not part of the sources at hand.  The drivers below
    take both integrators as parameters, with the call signatures the
    drivers use. *)

(** The type of the model function handed to the integrators. *)
Definition model_fn : Type :=
  ndarray Qc -> ndarray Qc -> ndarray Qc -> ndarray Qc -> ndarray Qc ->
  ndarray Qc -> ndarray Qc -> ndarray Qc -> ndarray Qc ->
  outcome (ndarray float_val).

(** [mf(t, S, *args)] *)
Definition call_model (mf : model_fn) (t S : ndarray Qc)
    (args : list (ndarray Qc)) : outcome (ndarray float_val) :=
  match args with
  | [T; Pr; E0; a; b; c; d] => mf t S T Pr E0 a b c d
  | _ => Raise TypeError
  end.

Definition rk4_fn : Type :=
  Qc -> ndarray Qc -> Qc -> model_fn -> list (ndarray Qc) -> outcome (ndarray Qc).

Definition rkf45_fn : Type :=
  Qc -> Qc -> Qc -> model_fn -> list (ndarray Qc) -> outcome (Qc * Qc * Qc).

(** The second argument of both drivers: [Args[0]] is the observation
    table, [Args[1]] the (initial) step. *)
Record Args : Type := mkArgs { Args0 : ndarray Qc; Args1 : Qc }.

(** ** [interceptCostRK4] (lines 135-166) *)

Section FixedStep.
Variable rk4 : rk4_fn.

(** Lines 158-164, from index [i] on; [ts] are the observed times
    still to be enumerated, [M] is [obsTime.size]. *)
Fixpoint rk4_loop (M : nat) (dt : Qc) (args : list (ndarray Qc))
    (i : nat) (ts : list Qc) (simStor : ndarray Qc) : outcome (ndarray Qc) :=
  match ts with
  | [] => Ok simStor
  | t :: ts' =>
      let j := (i + 1)%nat in
      if (M <=? j)%nat then Ok simStor
      else
        y ← getrow simStor i;
        y' ← rk4 t y dt interceptionModel args;
        simStor' ← setrow simStor j y';
        rk4_loop M dt args (S i) ts' simStor'
  end.

Definition interceptCostRK4 (Pars : ndarray Qc) (args : Args)
    : outcome (ndarray Qc * (ndarray Qc * ndarray Qc)) :=
  a ← getcol Pars 0;
  b ← getcol Pars 1;
  c ← getcol Pars 2;
  d ← getcol Pars 3;
  let Obs := Args0 args in
  let dt := Args1 args in
  obsTime ← getcol Obs 0;
  obsStor ← getcol Obs 1;
  obsPrec ← getcol Obs 2;
  obsEvap ← getcol Obs 3;
  let margs := [obsTime; obsPrec; obsEvap; a; b; c; d] in
  let simStor := np_zeros (nd_size obsTime) (nd_size a) in
  s0 ← getitem obsStor 0;
  simStor ← setrow simStor 0 (Scalar s0);
  simStor ← rk4_loop (nd_size obsTime) dt margs 0 (concat (as2d obsTime)) simStor;
  cost ← ssr (transpose simStor) obsStor;
  Ok (transpose simStor, cost).
End FixedStep.

(** ** [interceptionModel_CF] (lines 168-207) *)

(** Lines 202-204: the trajectory [simn] read on the grid [obsTime]. *)
Definition resample (obsTime simn : ndarray Qc) : outcome (ndarray Qc) :=
  simTime ← getcol simn 0;
  simStor ← getcol simn 1;
  np_interp obsTime simTime simStor.

Section Adaptive.
Variable rkf45 : rkf45_fn.

(** Lines 198-200.  The loop has no bound of its own: [fuel] bounds
    the number of integrator calls followed. *)
Fixpoint rkf45_loop (fuel : nat) (obsTime : ndarray Qc)
    (args : list (ndarray Qc)) (dt t s : Qc) (simn : ndarray Qc)
    : outcome (ndarray Qc) :=
  tend ← getitem obsTime (nd_size obsTime - 1);
  if Qcleb t tend then
    match fuel with
    | O => OutOfFuel
    | S fuel' =>
        '(dt', t', s') ← rkf45 t s dt interceptionModel args;
        rkf45_loop fuel' obsTime args dt' t' s' (np_vstack simn [t'; s'])
    end
  else Ok simn.

(** Lines 189-205: the body of the loop over the members, for member
    [i], on the pair ([obsSims], [sims]). *)
Definition member (fuel : nat) (A B C D : ndarray Qc)
    (obsTime obsStor obsPrec obsEvap : ndarray Qc) (args : Args) (i : nat)
    (st : ndarray Qc * list (ndarray Qc))
    : outcome (ndarray Qc * list (ndarray Qc)) :=
  let '(obsSims, sims) := st in
  t ← getitem obsTime 0;
  s ← getitem obsStor 0;
  let dt := Args1 args in
  let simn := Vec [t; s] in
  a ← getitem A i;
  b ← getitem B i;
  c ← getitem C i;
  d ← getitem D i;
  let margs := [obsTime; obsPrec; obsEvap; Scalar a; Scalar b; Scalar c; Scalar d] in
  simn ← rkf45_loop fuel obsTime margs dt t s simn;
  v ← resample obsTime simn;
  obsSims' ← setcol obsSims i v;
  Ok (obsSims', sims ++ [simn]).

(** [for i in range(...)]: the body run on each index in turn. *)
Fixpoint for_range {St : Type} (body : nat -> St -> outcome St)
    (idx : list nat) (st : St) : outcome St :=
  match idx with
  | [] => Ok st
  | i :: idx' => st' ← body i st; for_range body idx' st'
  end.

Definition interceptionModel_CF (fuel : nat) (Pars : ndarray Qc) (args : Args)
    : outcome (list (ndarray Qc) * (ndarray Qc * ndarray Qc)) :=
  A ← getcol Pars 0;
  B ← getcol Pars 1;
  C ← getcol Pars 2;
  D ← getcol Pars 3;
  let Obs := Args0 args in
  obsTime ← getcol Obs 0;
  obsStor ← getcol Obs 1;
  obsPrec ← getcol Obs 2;
  obsEvap ← getcol Obs 3;
  let obsSims := np_zeros (nd_size obsTime) (nd_size A) in
  '(obsSims, sims) ←
    for_range (member fuel A B C D obsTime obsStor obsPrec obsEvap args)
              (seq 0 (nd_size A - 1)) (obsSims, []);
  csts ← ssr (transpose obsSims) obsStor;
  Ok (sims, csts).
End Adaptive.

(** ** Integrators to run the drivers with *)

(** The slope [mf(t, y, *args)] as finite numbers.  A slope that is not
    finite is outside the numbers followed here; it is reported the way
    numpy does under [np.seterr(all='raise')]. *)
Definition finite_val (x : float_val) : option Qc :=
  match x with
  | Finite q => Some q
  | NonFinite => None
  end.

Definition finite_nd (x : ndarray float_val) : outcome (ndarray Qc) :=
  match x with
  | Scalar a =>
      match finite_val a with Some q => Ok (Scalar q) | None => Raise FloatingPointError end
  | Vec v =>
      match mapM finite_val v with Some u => Ok (Vec u) | None => Raise FloatingPointError end
  | Mat m rows =>
      match mapM (mapM finite_val) rows with
      | Some u => Ok (Mat m u)
      | None => Raise FloatingPointError
      end
  end.

Definition slope (mf : model_fn) (args : list (ndarray Qc)) (t : Qc) (y : ndarray Qc)
    : outcome (ndarray Qc) :=
  r ← call_model mf (Scalar t) y args; finite_nd r.

(** Modelled from the spec: [rk.rk4] of the missing module [rungekutta],
    "the classical 4-stage, 4th-order explicit Runge-Kutta update, with
    all ensemble members advanced in one vectorized evaluation per
    stage". *)
Definition rk4_classic : rk4_fn := fun t y dt mf args =>
  let h2 := dt / qz 2 in
  k1 ← slope mf args t y;
  y1 ← np_add y (nd_map (Qcmult h2) k1);
  k2 ← slope mf args (t + h2) y1;
  y2 ← np_add y (nd_map (Qcmult h2) k2);
  k3 ← slope mf args (t + h2) y2;
  y3 ← np_add y (nd_map (Qcmult dt) k3);
  k4 ← slope mf args (t + dt) y3;
  s12 ← np_add k1 (nd_map (Qcmult (qz 2)) k2);
  s123 ← np_add s12 (nd_map (Qcmult (qz 2)) k3);
  ks ← np_add s123 k4;
  np_add y (nd_map (Qcmult (dt / qz 6)) ks).

(** A one-stage integrator with the interface of [rk.rkf45]: it keeps
    the trial step and advances by the forward-Euler update. *)
Definition euler_rkf45 : rkf45_fn := fun t s dt mf args =>
  k ← slope mf args t (Scalar s);
  match k with
  | Scalar k => Ok (dt, t + dt, s + dt * k)
  | _ => Raise ValueError
  end.

(** ** Interpolation as the specification words it *)

(** The value at [x] of the straight line through [(x0, y0)] and
    [(x1, y1)]. *)
Definition chord (x0 y0 x1 y1 x : Qc) : Qc :=
  y0 + (x - x0) * (y1 - y0) / (x1 - x0).

(** [v] is the linear interpolation of the series [(xp, fp)] at [x]:
    the recorded value if [x] is a recorded time, the value of the chord
    between the two neighbouring records otherwise. *)
Definition linear_interpolant (xp fp : list Qc) (x v : Qc) : Prop :=
  exists (j : nat) (x0 y0 : Qc),
    xp !! j = Some x0 /\ fp !! j = Some y0 /\
    ((x = x0 /\ v = y0) \/
     (exists x1 y1 : Qc,
        xp !! S j = Some x1 /\ fp !! S j = Some y1 /\
        x0 < x /\ x < x1 /\ v = chord x0 y0 x1 y1 x)).

(** Strictly increasing times. *)
Definition increasing (l : list Qc) : Prop := Sorted Qclt l.

(** A trajectory as [interceptionModel_CF] stacks it: one row
    [[t, s]] per point. *)
Definition trajectory (pts : list (Qc * Qc)) : ndarray Qc :=
  Mat 2 (map (fun p => [p.1; p.2]) pts).

(** The argument list both drivers hand to the integrator, for the
    parameter columns [a], [b], [c], [d] given. *)
Definition model_args (obs : list (list Qc)) (a b c d : ndarray Qc)
    : list (ndarray Qc) :=
  [Vec (column 0 obs); Vec (column 2 obs); Vec (column 3 obs); a; b; c; d].

(** The argument list of the fixed-step driver: whole columns. *)
Definition ensemble_args (pars obs : list (list Qc)) : list (ndarray Qc) :=
  model_args obs (Vec (column 0 pars)) (Vec (column 1 pars))
                 (Vec (column 2 pars)) (Vec (column 3 pars)).

(** ** Notions the properties are stated with *)

(** Residuals and sums of squares, row by row. *)
Definition residuals (p d : list (list Qc)) : list (list Qc) :=
  zip_with (zip_with Qcminus) p d.

Definition sumsq (r : list Qc) : Qc := Qcsum (zip_with Qcmult r r).

(** The seeded matrix: [np.zeros((M, N))] with row 0 set to [s0]. *)
Definition seeded (M N : nat) (s0 : Qc) : list (list Qc) :=
  <[0%nat := replicate N s0]> (replicate M (replicate N 0)).

(** ** Data to run the drivers on *)

(** Three observations: columns time, storage, precipitation, potential
    evaporation. *)
Definition demo_obs : list (list Qc) :=
  [qs [0;1;2;2]%Z; qs [1;2;2;2]%Z; qs [2;3;2;2]%Z].

(** One and two parameter rows [(a, b, c, d)]. *)
Definition demo_pars1 : list (list Qc) := [qs [1;0;1;0]%Z].
Definition demo_pars2 : list (list Qc) := [qs [1;0;1;0]%Z; qs [1;0;1;1]%Z].

(** A natural number as an exact number. *)
Definition qn (n : nat) : Qc := qz (Z.of_nat n).

(** * Properties *)

(** ** Runs on concrete data *)

Example ssr_demo :
  ssr (Mat 3 [qs [1;2;3]%Z; qs [4;5;6]%Z]) (Vec (qs [1;1;1]%Z))
  = Ok (Mat 3 [qs [0;1;2]%Z; qs [3;4;5]%Z], Vec (qs [5;50]%Z)).
Proof. vm_compute. reflexivity. Qed.

Example interceptionModel_demo :
  interceptionModel (Scalar (qz 1)) (Scalar (qz 6))
    (Vec (qs [0;2]%Z)) (Vec (qs [0;4]%Z)) (Vec (qs [2;2]%Z))
    (Scalar (qz 1)) (Scalar (qz 0)) (Scalar (qz 1)) (Scalar (qz 0))
  = Ok (Scalar (Finite (qz 1))).
Proof. vm_compute. reflexivity. Qed.

(** ** Comparisons on exact numbers *)

Lemma Qcleb_le (x y : Qc) : Qcleb x y = true <-> x <= y.
Proof. unfold Qcleb, Qcle. apply Qle_bool_iff. Qed.

Lemma Qcltb_lt (x y : Qc) : Qcltb x y = true <-> x < y.
Proof.
  unfold Qcltb. rewrite negb_true_iff, <- not_true_iff_false, Qle_bool_iff.
  unfold Qclt. split; [apply Qnot_le_lt | apply Qlt_not_le].
Qed.

Lemma Qcltb_ge (x y : Qc) : Qcltb x y = false <-> y <= x.
Proof.
  unfold Qcltb. rewrite negb_false_iff. apply Qcleb_le.
Qed.

Lemma Qceqb_eq (x y : Qc) : Qceqb x y = true <-> x = y.
Proof.
  unfold Qceqb. rewrite Qeq_bool_iff. split.
  - apply Qc_is_canon.
  - intros ->. reflexivity.
Qed.

Lemma Qceqb_neq (x y : Qc) : Qceqb x y = false <-> x <> y.
Proof.
  rewrite <- not_true_iff_false, Qceqb_eq. reflexivity.
Qed.

Lemma Qclt_irreflexive (x : Qc) : ~ x < x.
Proof. intros H. exact (Qclt_not_eq _ _ H eq_refl). Qed.

Lemma Qcmax_ge_r (x y : Qc) : y <= Qcmax x y.
Proof.
  unfold Qcmax. destruct (Qcleb x y) eqn:E.
  - apply Qcle_refl.
  - apply Qclt_le_weak, Qcltb_lt. unfold Qcltb, Qcleb in *. rewrite E. reflexivity.
Qed.

(** ** Broadcasting *)

Lemma bdim_same (n : nat) : bdim n n = Some n.
Proof. unfold bdim. rewrite Nat.eqb_refl. reflexivity. Qed.

Lemma bdim_None (n1 n2 : nat) :
  bdim n1 n2 = None <-> n1 <> n2 /\ n1 <> 1%nat /\ n2 <> 1%nat.
Proof.
  unfold bdim.
  destruct (Nat.eqb_spec n1 n2), (Nat.eqb_spec n1 1), (Nat.eqb_spec n2 1);
    split; intros; try discriminate; try reflexivity; intuition congruence.
Qed.

Lemma stretch_id {A : Type} (n : nat) (l : list A) :
  length l = n -> stretch n l = l.
Proof. destruct l as [|a [|b l]]; simpl; intros <-; reflexivity. Qed.

Lemma map_stretch_wf {A : Type} (m : nat) (rows : list (list A)) :
  wf_rows m rows -> map (stretch m) rows = rows.
Proof.
  induction 1 as [|r rows Hr _ IH]; simpl; [reflexivity|].
  rewrite IH, (stretch_id m r Hr). reflexivity.
Qed.

Lemma wf_rows_zip_with {A B C : Type} (f : A -> B -> C) (m : nat)
    (p : list (list A)) (d : list (list B)) :
  wf_rows m p -> wf_rows m d -> wf_rows m (zip_with (zip_with f) p d).
Proof.
  intros Hp. revert d. induction Hp as [|r p Hr _ IH]; intros d Hd; simpl.
  - constructor.
  - destruct Hd as [|r' d Hr' Hd]; constructor.
    + rewrite length_zip_with, Hr, Hr'. lia.
    + apply IH, Hd.
Qed.

Lemma broadcast2_same_shape {A B C : Type} (f : A -> B -> C) (m : nat)
    (p : list (list A)) (d : list (list B)) :
  wf_rows m p -> wf_rows m d -> length p = length d ->
  broadcast2 f (Mat m p) (Mat m d) = Ok (Mat m (zip_with (zip_with f) p d)).
Proof.
  intros Hp Hd Hlen. unfold broadcast2. simpl.
  rewrite Hlen, !bdim_same.
  rewrite !map_stretch_wf by assumption.
  rewrite !stretch_id by congruence.
  reflexivity.
Qed.

(** ** The cost evaluator on two matrices of one shape *)

Lemma map_sum_squares (l : list (list Qc)) :
  map Qcsum (zip_with (zip_with Qcmult) l l) = map sumsq l.
Proof.
  induction l as [|r l IH]; simpl; [reflexivity|]. rewrite IH. reflexivity.
Qed.

Lemma ssr_same_shape (m : nat) (p d : list (list Qc)) :
  wf_rows m p -> wf_rows m d -> length p = length d ->
  ssr (Mat m p) (Mat m d)
  = Ok (Mat m (residuals p d), Vec (map sumsq (residuals p d))).
Proof.
  intros Hp Hd Hlen. unfold ssr, np_subtract, np_multiply.
  rewrite broadcast2_same_shape by assumption. simpl.
  assert (Hr : wf_rows m (residuals p d)) by (apply wf_rows_zip_with; assumption).
  fold (residuals p d).
  rewrite broadcast2_same_shape by (assumption || reflexivity). simpl.
  do 3 f_equal. apply map_sum_squares.
Qed.

Lemma sumsq_residual_self (r : list Qc) : sumsq (zip_with Qcminus r r) = 0.
Proof.
  unfold sumsq. induction r as [|a r IH]; simpl; [reflexivity|].
  rewrite IH. ring.
Qed.

Lemma sumsq_residual_sym (r1 r2 : list Qc) :
  sumsq (zip_with Qcminus r1 r2) = sumsq (zip_with Qcminus r2 r1).
Proof.
  unfold sumsq. revert r2. induction r1 as [|a r1 IH]; intros [|b r2]; simpl;
    try reflexivity.
  rewrite IH. ring.
Qed.

Lemma costs_self (p : list (list Qc)) :
  map sumsq (residuals p p) = replicate (length p) 0.
Proof.
  induction p as [|r p IH]; simpl; [reflexivity|].
  rewrite sumsq_residual_self. f_equal. exact IH.
Qed.

Lemma costs_sym (p d : list (list Qc)) :
  map sumsq (residuals p d) = map sumsq (residuals d p).
Proof.
  revert d. induction p as [|r p IH]; intros [|r' d]; simpl; try reflexivity.
  rewrite sumsq_residual_sym. f_equal. apply IH.
Qed.

(** C6. For every matrix [x] (an [n] by [m] array of trajectories) the
    cost evaluator applied to [x] and [x] returns the SSR vector of [n]
    zeros; and for every two matrices [x], [y] of one shape the SSR
    vector of [x] against [y] is the SSR vector of [y] against [x]. *)
Theorem ssr_self_zero_and_symmetric (m : nat) (x y : list (list Qc)) :
  wf_rows m x -> wf_rows m y -> length x = length y ->
  (exists res, ssr (Mat m x) (Mat m x) = Ok (res, Vec (replicate (length x) 0)))
  /\ (exists res res' cost,
        ssr (Mat m x) (Mat m y) = Ok (res, cost) /\
        ssr (Mat m y) (Mat m x) = Ok (res', cost)).
Proof.
  intros Hx Hy Hlen. split.
  - exists (Mat m (residuals x x)).
    rewrite ssr_same_shape by (assumption || reflexivity).
    rewrite costs_self. reflexivity.
  - exists (Mat m (residuals x y)), (Mat m (residuals y x)),
      (Vec (map sumsq (residuals x y))).
    rewrite !ssr_same_shape by (assumption || congruence).
    rewrite (costs_sym y x). split; reflexivity.
Qed.

Lemma ssr_self_zero_and_symmetric_witness :
  let x := [qs [1;2;3]%Z; qs [4;5;6]%Z] in
  let y := [qs [0;2;5]%Z; qs [4;4;4]%Z] in
  (exists res, ssr (Mat 3 x) (Mat 3 x) = Ok (res, Vec (replicate (length x) 0)))
  /\ (exists res res' cost,
        ssr (Mat 3 x) (Mat 3 y) = Ok (res, cost) /\
        ssr (Mat 3 y) (Mat 3 x) = Ok (res', cost)).
Proof.
  intros x y.
  apply (ssr_self_zero_and_symmetric 3 x y);
    [repeat constructor | repeat constructor | reflexivity].
Defined.

Lemma broadcast2_vec {A B C : Type} (f : A -> B -> C) (u : list A) (v : list B) :
  broadcast2 f (Vec u) (Vec v)
  = match bdim (length u) (length v) with
    | Some c => Ok (Vec (zip_with f (stretch c u) (stretch c v)))
    | None => Raise ValueError
    end.
Proof.
  unfold broadcast2. simpl. destruct (bdim (length u) (length v)); reflexivity.
Qed.

Lemma square_and_sum_no_ValueError (x : ndarray Qc) :
  (sq ← np_multiply x x; s ← np_sum_axis1 sq; Ok (x, s)) <> Raise ValueError.
Proof.
  unfold np_multiply, broadcast2. rewrite !bdim_same. simpl.
  destruct (of2d _ _ _); simpl; discriminate.
Qed.

(** C5, as the code has it.  [ssr] raises numpy's shape error exactly
    when the two shapes cannot be broadcast together: on some axis the
    lengths differ and neither is 1.  Shapes that differ but can be
    broadcast (a matrix against a vector, a column or a scalar) raise
    no shape error. *)
Theorem ssr_shape_error_iff_not_broadcastable (p d : ndarray Qc) :
  ssr p d = Raise ValueError
  <-> (nrows p <> nrows d /\ nrows p <> 1%nat /\ nrows d <> 1%nat)
      \/ (ncols p <> ncols d /\ ncols p <> 1%nat /\ ncols d <> 1%nat).
Proof.
  rewrite <- !bdim_None. unfold ssr, np_subtract. unfold broadcast2 at 1.
  destruct (bdim (nrows p) (nrows d)) as [r|] eqn:Er;
    destruct (bdim (ncols p) (ncols d)) as [c|] eqn:Ec; simpl.
  - split.
    + intros H. exfalso. revert H. apply square_and_sum_no_ValueError.
    + intros [H|H]; discriminate.
  - split; [right|]; reflexivity.
  - split; [left|]; reflexivity.
  - split; [left|]; reflexivity.
Qed.

(** C5, counterexample.  A 2 by 3 matrix of simulated values against a
    2 by 1 column of observations: the lengths of the time axis are 3
    and 1, and [ssr] returns a result. *)
Lemma ssr_accepts_mismatched_time_axis :
  let p := Mat 3 [qs [1;2;3]%Z; qs [4;5;6]%Z] in
  let d := Mat 1 [qs [1]%Z; qs [2]%Z] in
  ncols p <> ncols d /\
  ssr p d = Ok (Mat 3 [qs [0;1;2]%Z; qs [2;3;4]%Z], Vec (qs [5;29]%Z)).
Proof.
  split; [discriminate|]. vm_compute. reflexivity.
Qed.

(** ** [np.interp] *)

Lemma chord_slope_form (x0 y0 x1 y1 x : Qc) :
  x0 < x1 -> (y1 - y0) / (x1 - x0) * (x - x0) + y0 = chord x0 y0 x1 y1 x.
Proof.
  intros H. unfold chord. field.
  intros E. apply (Qclt_not_eq _ _ H). symmetry.
  rewrite <- (Qcplus_0_l x0), <- E. ring.
Qed.

Lemma last_cons_default {A : Type} (l : list A) : forall a d : A,
  List.last (a :: l) d = List.last l a.
Proof.
  induction l as [|b l IH]; intros a d; [reflexivity|].
  change (List.last (a :: b :: l) d) with (List.last (b :: l) d).
  rewrite !IH. reflexivity.
Qed.

(** The scan returns a linear interpolant of the nodes, for a query
    between the first and the last node. *)
Lemma interp_scan_spec (rest : list (Qc * Qc)) : forall (x0 y0 x : Qc),
  x0 <= x -> x <= List.last (rest.*1) x0 ->
  linear_interpolant (x0 :: rest.*1) (y0 :: rest.*2) x (interp_scan x x0 y0 rest).
Proof.
  induction rest as [|[x1 y1] rest IH]; intros x0 y0 x Hlo Hhi.
  - simpl in *. exists 0%nat, x0, y0. repeat split.
    left. split; [|reflexivity]. apply Qcle_antisym; assumption.
  - cbn [interp_scan]. destruct (Qcltb x x1) eqn:Elt.
    + apply Qcltb_lt in Elt. destruct (Qceqb x0 x) eqn:Eeq.
      * apply Qceqb_eq in Eeq. exists 0%nat, x0, y0. repeat split. left. auto.
      * apply Qceqb_neq in Eeq. exists 0%nat, x0, y0. repeat split. right.
        exists x1, y1. repeat split.
        -- destruct (Qcle_lt_or_eq _ _ Hlo); [assumption | contradiction].
        -- assumption.
        -- apply chord_slope_form. eapply Qcle_lt_trans; eassumption.
    + apply Qcltb_ge in Elt.
      destruct (IH x1 y1 x Elt) as (j & a & b & Ha & Hb & Hv).
      { rewrite fmap_cons, last_cons_default in Hhi. exact Hhi. }
      exists (S j), a, b. repeat split; assumption.
Qed.

Lemma Forall_last {A : Type} (P : A -> Prop) (l : list A) : forall d : A,
  P d -> Forall P l -> P (List.last l d).
Proof.
  induction l as [|b l IH]; intros d Hd Hl; [exact Hd|].
  rewrite last_cons_default. inversion Hl; subst. apply IH; assumption.
Qed.

Lemma interp1_spec (xp fp : list Qc) (x x0 : Qc) :
  length fp = length xp ->
  xp !! 0%nat = Some x0 -> x0 <= x -> x <= List.last xp x0 ->
  linear_interpolant xp fp x (interp1 xp fp x).
Proof.
  intros Hlen H0 Hlo Hhi.
  destruct xp as [|a xp]; [discriminate|]. destruct fp as [|y0 fp]; [discriminate|].
  simpl in H0. injection H0 as ->. simpl in Hlen. injection Hlen as Hlen.
  rewrite last_cons_default in Hhi.
  unfold interp1. cbn [zip zip_with]. rewrite last_cons_default.
  replace (Qcltb (List.last xp x0) x) with false
    by (symmetry; apply Qcltb_ge; exact Hhi).
  replace (Qcltb x x0) with false by (symmetry; apply Qcltb_ge; exact Hlo).
  pose proof (interp_scan_spec (zip xp fp) x0 y0 x Hlo) as Hs.
  rewrite fst_zip, snd_zip in Hs by lia.
  apply Hs, Hhi.
Qed.

Lemma increasing_strongly (l : list Qc) : increasing l -> StronglySorted Qclt l.
Proof.
  apply Sorted_StronglySorted. intros x y z. apply Qclt_trans.
Qed.

Lemma increasing_lookup_lt (l : list Qc) : increasing l ->
  forall (i j : nat) (a b : Qc),
    (i < j)%nat -> l !! i = Some a -> l !! j = Some b -> a < b.
Proof.
  intros H. apply increasing_strongly in H.
  induction H as [|x l _ IH Hx]; intros i j a b Hij Ha Hb; [discriminate|].
  destruct j as [|j]; [lia|]. simpl in Hb. destruct i as [|i].
  - simpl in Ha. injection Ha as <-.
    rewrite List.Forall_forall in Hx. apply Hx.
    apply list_elem_of_In. eapply list_elem_of_lookup_2, Hb.
  - simpl in Ha. apply (IH i j); [lia | assumption | assumption].
Qed.

Lemma increasing_le_last (l : list Qc) : increasing l ->
  forall (k : nat) (x d : Qc), l !! k = Some x -> x <= List.last l d.
Proof.
  intros H. apply increasing_strongly in H.
  induction H as [|a l _ IH Ha]; intros k x d Hk; [discriminate|].
  rewrite last_cons_default. destruct k as [|k].
  - simpl in Hk. injection Hk as <-.
    apply (Forall_last (fun z => a <= z)); [apply Qcle_refl|].
    eapply List.Forall_impl; [|exact Ha]. intros z. apply Qclt_le_weak.
  - simpl in Hk. apply (IH k). exact Hk.
Qed.

(** At a recorded time [np.interp] returns the recorded value. *)
Lemma interp1_at_node (xp fp : list Qc) (k : nat) (x y : Qc) :
  increasing xp -> length fp = length xp ->
  xp !! k = Some x -> fp !! k = Some y -> interp1 xp fp x = y.
Proof.
  intros Hinc Hlen Hx Hy.
  destruct (xp !! 0%nat) as [x0|] eqn:H0;
    [|apply lookup_ge_None_1 in H0; apply lookup_lt_Some in Hx; lia].
  assert (Hlo : x0 <= x).
  { destruct k as [|k]; [rewrite Hx in H0; injection H0 as ->; apply Qcle_refl|].
    apply Qclt_le_weak. apply (increasing_lookup_lt xp Hinc 0 (S k)); [lia|assumption..]. }
  pose proof (increasing_le_last xp Hinc k x x0 Hx) as Hhi.
  destruct (interp1_spec xp fp x x0 Hlen H0 Hlo Hhi)
    as (j & a & b & Ha & Hb & [[-> ->] | (x1 & y1 & Hx1 & _ & Hl & Hr & _)]).
  - destruct (Nat.lt_trichotomy j k) as [Hjk | [-> | Hjk]].
    + exfalso. eapply Qclt_not_eq; [|reflexivity].
      apply (increasing_lookup_lt xp Hinc j k a a Hjk Ha Hx).
    + congruence.
    + exfalso. eapply Qclt_not_eq; [|reflexivity].
      apply (increasing_lookup_lt xp Hinc k j a a Hjk Hx Ha).
  - exfalso. destruct (Nat.le_gt_cases k j) as [Hkj | Hkj].
    + apply (Qclt_irreflexive x). eapply Qcle_lt_trans; [|exact Hl].
      destruct (Nat.eq_dec k j) as [->|Hne].
      * rewrite Hx in Ha. injection Ha as ->. apply Qcle_refl.
      * apply Qclt_le_weak.
        apply (increasing_lookup_lt xp Hinc k j x a); [lia|assumption..].
    + apply (Qclt_irreflexive x). eapply Qclt_le_trans; [exact Hr|].
      destruct (Nat.eq_dec (S j) k) as [<-|Hne].
      * rewrite Hx in Hx1. injection Hx1 as ->. apply Qcle_refl.
      * apply Qclt_le_weak.
        apply (increasing_lookup_lt xp Hinc (S j) k x1 x); [lia|assumption..].
Qed.

Lemma np_interp_vec (x : ndarray Qc) (xp fp : list Qc) :
  xp <> [] -> length fp = length xp ->
  np_interp x (Vec xp) (Vec fp) = Ok (nd_map (interp1 xp fp) x).
Proof.
  intros Hne Hlen. unfold np_interp.
  destruct xp as [|a xp]; [contradiction|]. rewrite Hlen, Nat.eqb_refl. reflexivity.
Qed.

Lemma np_maximum0_nonneg (v : ndarray Qc) :
  Forall (Forall (Qcle 0)) (as2d (np_maximum0 v)).
Proof.
  assert (H : forall l : list Qc, Forall (Qcle 0) (map (fun a => Qcmax a 0) l)).
  { intros l. induction l; constructor; [apply Qcmax_ge_r | assumption]. }
  destruct v as [a|l|m rows]; simpl.
  - repeat constructor. apply Qcmax_ge_r.
  - repeat constructor. apply H.
  - induction rows; constructor; [apply H | assumption].
Qed.

(** C8. For a forcing series [F] recorded at strictly increasing times
    [T] and a query time [t] between the first and the last recorded
    time, the interpolator returns [max v 0] where [v] is the linear
    interpolation of the series at [t]; and whatever the query, every
    value the interpolator returns is non-negative. *)
Theorem forcing_floored_linear_interpolation (T F : list Qc) (t t0 : Qc) :
  increasing T -> length F = length T ->
  T !! 0%nat = Some t0 -> t0 <= t -> t <= List.last T t0 ->
  (exists v : Qc,
      linear_interpolant T F t v /\
      forcing (Scalar t) (Vec T) (Vec F) = Ok (Scalar (Qcmax v 0)))
  /\ (forall (q r : ndarray Qc),
        forcing q (Vec T) (Vec F) = Ok r -> Forall (Forall (Qcle 0)) (as2d r)).
Proof.
  intros _ Hlen H0 Hlo Hhi. split.
  - exists (interp1 T F t). split.
    + exact (interp1_spec T F t t0 Hlen H0 Hlo Hhi).
    + unfold forcing. rewrite np_interp_vec; [reflexivity | | exact Hlen].
      intros ->. discriminate.
  - intros q r. unfold forcing.
    destruct (np_interp q (Vec T) (Vec F)) as [v| |]; simpl; try discriminate.
    intros [= <-]. apply np_maximum0_nonneg.
Qed.

Lemma forcing_floored_linear_interpolation_witness :
  let T := qs [0;2;4]%Z in
  let F := qs [1;-3;5]%Z in
  (exists v : Qc,
      linear_interpolant T F (qz 1) v /\
      forcing (Scalar (qz 1)) (Vec T) (Vec F) = Ok (Scalar (Qcmax v 0)))
  /\ (forall (q r : ndarray Qc),
        forcing q (Vec T) (Vec F) = Ok r -> Forall (Forall (Qcle 0)) (as2d r)).
Proof.
  intros T F.
  apply (forcing_floored_linear_interpolation T F (qz 1) (qz 0)).
  - repeat constructor.
  - reflexivity.
  - reflexivity.
  - discriminate.
  - discriminate.
Defined.

Example forcing_demo :
  forcing (Vec (qs [1;3;4]%Z)) (Vec (qs [0;2;4]%Z)) (Vec (qs [1;-3;5]%Z))
  = Ok (Vec (qs [0;1;5]%Z)).
Proof. vm_compute. reflexivity. Qed.

Lemma getcol_trajectory (pts : list (Qc * Qc)) :
  getcol (trajectory pts) 0 = Ok (Vec (pts.*1)) /\
  getcol (trajectory pts) 1 = Ok (Vec (pts.*2)).
Proof.
  unfold trajectory, getcol, column. simpl.
  split; do 2 f_equal; induction pts as [|p pts IH]; simpl; [reflexivity| |reflexivity|].
  all: f_equal; exact IH.
Qed.

Lemma interp1_nodes (xs fs : list Qc) :
  increasing xs -> length fs = length xs -> map (interp1 xs fs) xs = fs.
Proof.
  intros Hinc Hlen.
  apply (list_eq_same_length _ _ (length xs)); [exact Hlen | apply List.length_map |].
  intros i x y _ Hx Hy.
  change (map (interp1 xs fs) xs) with (interp1 xs fs <$> xs) in Hx.
  apply list_lookup_fmap_Some in Hx as (t & -> & Ht).
  exact (interp1_at_node xs fs i t y Hinc Hlen Ht Hy).
Qed.

(** C9. A trajectory with strictly increasing times, read by the
    resampler at its own times, gives back its own storage values. *)
Theorem resample_exact_at_nodes (p : Qc * Qc) (pts : list (Qc * Qc)) :
  increasing ((p :: pts).*1) ->
  resample (Vec ((p :: pts).*1)) (trajectory (p :: pts)) = Ok (Vec ((p :: pts).*2)).
Proof.
  intros Hinc. unfold resample.
  destruct (getcol_trajectory (p :: pts)) as [-> ->]. simpl mbind.
  change (np_interp (Vec (p :: pts).*1) (Vec (p :: pts).*1) (Vec (p :: pts).*2)
          = Ok (Vec (p :: pts).*2)).
  rewrite np_interp_vec; [|discriminate|rewrite !length_fmap; reflexivity].
  unfold nd_map. rewrite interp1_nodes;
    [reflexivity | exact Hinc | rewrite !length_fmap; reflexivity].
Qed.

Lemma resample_exact_at_nodes_witness :
  let p := (qz 0, qz 5) in
  let pts := [(qz 1, qz 7); (qz 3, qz 2)] in
  resample (Vec ((p :: pts).*1)) (trajectory (p :: pts)) = Ok (Vec ((p :: pts).*2)).
Proof.
  intros p pts. apply (resample_exact_at_nodes p pts). repeat constructor.
Defined.

(** ** The storage dynamics *)

Lemma broadcast2_scalar {A B C : Type} (f : A -> B -> C) (a : A) (b : B) :
  broadcast2 f (Scalar a) (Scalar b) = Ok (Scalar (f a b)).
Proof. reflexivity. Qed.

Lemma forcing_scalar (t : Qc) (T F : list Qc) :
  T <> [] -> length F = length T ->
  forcing (Scalar t) (Vec T) (Vec F) = Ok (Scalar (Qcmax (interp1 T F t) 0)).
Proof.
  intros Hne Hlen. unfold forcing. rewrite np_interp_vec by assumption. reflexivity.
Qed.

Lemma drainage_scalar (bm S cm : Qc) :
  drainage (Scalar bm) (Scalar S) (Scalar cm)
  = Ok (Scalar (if Qcltb cm S then bm * (S - cm) else 0)).
Proof.
  unfold drainage, np_greater, np_subtract, np_multiply.
  rewrite broadcast2_scalar. simpl. destruct (Qcltb cm S); reflexivity.
Qed.

Lemma qz5_times_nonzero (c : Qc) : c <> 0 -> qz 5 * c <> 0.
Proof.
  intros Hc H. apply Qcmult_integral in H as [H|H]; [discriminate | contradiction].
Qed.

(** The dynamics on scalar state and parameters, with the coefficients
    [am], [bm], [cm], [dm] left as they come out of [transform]. *)
Lemma interceptionModel_scalar (t S a b c d : Qc) (T Pr E0 : list Qc) :
  T <> [] -> length Pr = length T -> length E0 = length T ->
  interceptionModel (Scalar t) (Scalar S) (Vec T) (Vec Pr) (Vec E0)
    (Scalar a) (Scalar b) (Scalar c) (Scalar d)
  = let bm := qz 999 * b + 1 in
    let cm := qz 5 * c in
    let dm := qz 3 * d in
    let S' := Qcmax S 0 in
    let P := Qcmax (interp1 T Pr t) 0 in
    let E := Qcmax (interp1 T E0 t) 0 in
    Ok (Scalar (sub_fv (a * P - (if Qcltb cm S' then bm * (S' - cm) else 0))
                       (mul_fv (dm * E) (np_divide S' cm)))).
Proof.
  intros Hne HPr HE0. unfold interceptionModel, transform.
  cbn [nd_map np_maximum0].
  rewrite !forcing_scalar by assumption. cbn [mbind outcome_bind].
  unfold np_multiply at 1. rewrite broadcast2_scalar. cbn [mbind outcome_bind].
  rewrite drainage_scalar. cbn [mbind outcome_bind].
  unfold np_multiply, np_subtract. rewrite !broadcast2_scalar. reflexivity.
Qed.

(** C7. The coefficients are [am = a], [bm = 999 b + 1], [cm = 5 c] and
    [dm = 3 d], computed by a total function, and they are the
    coefficients the dynamics use: with [P] and [E] the floored forcing
    and [S'] the floored storage, the rate of change is
    [a P - D - (3 d) E (S' / (5 c))] with [D = (999 b + 1) (S' - 5 c)]
    above capacity and 0 otherwise. *)
Theorem transform_is_the_fixed_map (t S a b c d : Qc) (T Pr E0 : list Qc) :
  T <> [] -> length Pr = length T -> length E0 = length T -> c <> 0 ->
  transform (Scalar a) (Scalar b) (Scalar c) (Scalar d)
  = (Scalar a, Scalar (qz 999 * b + 1), Scalar (qz 5 * c), Scalar (qz 3 * d))
  /\ interceptionModel (Scalar t) (Scalar S) (Vec T) (Vec Pr) (Vec E0)
       (Scalar a) (Scalar b) (Scalar c) (Scalar d)
     = let S' := Qcmax S 0 in
       let P := Qcmax (interp1 T Pr t) 0 in
       let E := Qcmax (interp1 T E0 t) 0 in
       let D := if Qcltb (qz 5 * c) S'
                then (qz 999 * b + 1) * (S' - qz 5 * c) else 0 in
       Ok (Scalar (Finite (a * P - D - qz 3 * d * E * (S' / (qz 5 * c))))).
Proof.
  intros Hne HPr HE0 Hc. split; [reflexivity|].
  rewrite interceptionModel_scalar by assumption. cbv zeta.
  unfold np_divide.
  replace (Qceqb (qz 5 * c) 0) with false
    by (symmetry; apply Qceqb_neq, qz5_times_nonzero, Hc).
  reflexivity.
Qed.

Lemma transform_is_the_fixed_map_witness :
  let T := qs [0;2]%Z in
  let Pr := qs [0;4]%Z in
  let E0 := qs [2;2]%Z in
  let t := qz 1 in let S := qz 6 in
  let a := qz 1 in let b := qz 0 in let c := qz 1 in let d := qz 1 in
  transform (Scalar a) (Scalar b) (Scalar c) (Scalar d)
  = (Scalar a, Scalar (qz 999 * b + 1), Scalar (qz 5 * c), Scalar (qz 3 * d))
  /\ interceptionModel (Scalar t) (Scalar S) (Vec T) (Vec Pr) (Vec E0)
       (Scalar a) (Scalar b) (Scalar c) (Scalar d)
     = let S' := Qcmax S 0 in
       let P := Qcmax (interp1 T Pr t) 0 in
       let E := Qcmax (interp1 T E0 t) 0 in
       let D := if Qcltb (qz 5 * c) S'
                then (qz 999 * b + 1) * (S' - qz 5 * c) else 0 in
       Ok (Scalar (Finite (a * P - D - qz 3 * d * E * (S' / (qz 5 * c))))).
Proof.
  intros T Pr E0 t S a b c d.
  apply (transform_is_the_fixed_map t S a b c d T Pr E0);
    [discriminate | reflexivity | reflexivity | discriminate].
Defined.

(** C3, as the code has it.  With raw capacity [c = 0] the dynamics
    raise nothing: the division [S/cm] is carried out, its result is
    not finite, and so is the returned rate of change. *)
Theorem zero_capacity_divides_without_error (t S a b d : Qc) (T Pr E0 : list Qc) :
  T <> [] -> length Pr = length T -> length E0 = length T ->
  interceptionModel (Scalar t) (Scalar S) (Vec T) (Vec Pr) (Vec E0)
    (Scalar a) (Scalar b) (Scalar 0) (Scalar d)
  = Ok (Scalar NonFinite).
Proof.
  intros Hne HPr HE0.
  rewrite interceptionModel_scalar by assumption. cbv zeta.
  unfold np_divide.
  replace (Qceqb (qz 5 * 0) 0) with true
    by (symmetry; apply Qceqb_eq; ring).
  reflexivity.
Qed.

Lemma zero_capacity_divides_without_error_witness :
  interceptionModel (Scalar (qz 1)) (Scalar (qz 2))
    (Vec (qs [0;2]%Z)) (Vec (qs [0;4]%Z)) (Vec (qs [2;2]%Z))
    (Scalar (qz 1)) (Scalar (qz 1)) (Scalar 0) (Scalar (qz 1))
  = Ok (Scalar NonFinite).
Proof.
  apply (zero_capacity_divides_without_error (qz 1) (qz 2) (qz 1) (qz 1) (qz 1)
           (qs [0;2]%Z) (qs [0;4]%Z) (qs [2;2]%Z));
    [discriminate | reflexivity | reflexivity].
Defined.

(** C3, counterexample.  Storage 6, raw parameters
    [(a, b, c, d) = (1, 0, 0, 1)]: the capacity is zero and no error is
    signalled. *)
Lemma zero_capacity_is_no_domain_error :
  let r := interceptionModel (Scalar (qz 1)) (Scalar (qz 6))
             (Vec (qs [0;2]%Z)) (Vec (qs [0;4]%Z)) (Vec (qs [2;2]%Z))
             (Scalar (qz 1)) (Scalar (qz 0)) (Scalar (qz 0)) (Scalar (qz 1)) in
  r = Ok (Scalar NonFinite) /\ forall e : exn, r <> Raise e.
Proof.
  assert (H : interceptionModel (Scalar (qz 1)) (Scalar (qz 6))
             (Vec (qs [0;2]%Z)) (Vec (qs [0;4]%Z)) (Vec (qs [2;2]%Z))
             (Scalar (qz 1)) (Scalar (qz 0)) (Scalar (qz 0)) (Scalar (qz 1))
              = Ok (Scalar NonFinite)) by (vm_compute; reflexivity).
  cbv zeta. rewrite H. split; [reflexivity | discriminate].
Qed.

Lemma truth_ambiguous (l : list bool) :
  (2 <= length l)%nat -> truth (Vec l) = Raise ValueError.
Proof.
  unfold truth. simpl. rewrite app_nil_r.
  destruct l as [|x [|y l]]; simpl; intros H; try lia. reflexivity.
Qed.

Lemma np_greater_vec (S cm : list Qc) :
  length cm = length S ->
  np_greater (Vec S) (Vec cm) = Ok (Vec (zip_with (fun a b => Qcltb b a) S cm)).
Proof.
  intros Hlen. unfold np_greater. rewrite broadcast2_vec, Hlen, bdim_same.
  rewrite !stretch_id by congruence. reflexivity.
Qed.

Lemma drainage_ensemble (bm S cm : list Qc) :
  length cm = length S -> (2 <= length S)%nat ->
  drainage (Vec bm) (Vec S) (Vec cm) = Raise ValueError.
Proof.
  intros Hlen HN. unfold drainage. rewrite np_greater_vec by exact Hlen.
  cbn [mbind outcome_bind]. rewrite truth_ambiguous; [reflexivity|].
  rewrite length_zip_with. lia.
Qed.

Lemma drainage_single (bm s cm : Qc) :
  drainage (Vec [bm]) (Vec [s]) (Vec [cm])
  = Ok (if Qcltb cm s then Vec [bm * (s - cm)] else Scalar 0).
Proof.
  unfold drainage. rewrite np_greater_vec by reflexivity. simpl.
  destruct (Qcltb cm s); reflexivity.
Qed.

(** C2, what the code does.  For an ensemble of [N >= 2] members
    (storage [S] and capacities [c] of width [N]) the test [if S>cm]
    has no truth value: the dynamics raise ValueError, and no drainage
    is computed for any member.  For a single member ([N = 1]) the
    drainage is [bm (S - cm)] above capacity and 0 otherwise. *)
Theorem interceptionModel_raises_on_ensemble
    (t : Qc) (S a b c d T Pr E0 : list Qc) :
  T <> [] -> length Pr = length T -> length E0 = length T ->
  length c = length S -> (2 <= length S)%nat ->
  interceptionModel (Scalar t) (Vec S) (Vec T) (Vec Pr) (Vec E0)
    (Vec a) (Vec b) (Vec c) (Vec d)
  = Raise ValueError
  /\ forall bm s cm : Qc,
      drainage (Vec [bm]) (Vec [s]) (Vec [cm])
      = Ok (if Qcltb cm s then Vec [bm * (s - cm)] else Scalar 0).
Proof.
  intros Hne HPr HE0 Hlen HN. split; [|apply drainage_single].
  unfold interceptionModel, transform. cbn [nd_map np_maximum0].
  rewrite !forcing_scalar by assumption. cbn [mbind outcome_bind].
  assert (HI : exists I, np_multiply (Vec a) (Scalar (Qcmax (interp1 T Pr t) 0)) = Ok I).
  { unfold np_multiply, broadcast2. cbn [nrows ncols]. rewrite bdim_same.
    destruct (bdim (length a) 1) eqn:E; [eexists; reflexivity|].
    apply bdim_None in E. lia. }
  destruct HI as [I ->]. cbn [mbind outcome_bind].
  rewrite drainage_ensemble; [reflexivity | |].
  - rewrite !List.length_map. exact Hlen.
  - rewrite List.length_map. exact HN.
Qed.

Lemma interceptionModel_raises_on_ensemble_witness :
  interceptionModel (Scalar (qz 1)) (Vec (qs [6;1]%Z))
    (Vec (qs [0;2]%Z)) (Vec (qs [0;4]%Z)) (Vec (qs [2;2]%Z))
    (Vec (qs [1;1]%Z)) (Vec (qs [0;0]%Z)) (Vec (qs [1;1]%Z)) (Vec (qs [1;1]%Z))
  = Raise ValueError
  /\ forall bm s cm : Qc,
      drainage (Vec [bm]) (Vec [s]) (Vec [cm])
      = Ok (if Qcltb cm s then Vec [bm * (s - cm)] else Scalar 0).
Proof.
  apply (interceptionModel_raises_on_ensemble (qz 1) (qs [6;1]%Z)
           (qs [1;1]%Z) (qs [0;0]%Z) (qs [1;1]%Z) (qs [1;1]%Z)
           (qs [0;2]%Z) (qs [0;4]%Z) (qs [2;2]%Z));
    [discriminate | reflexivity | reflexivity | reflexivity | simpl; lia].
Defined.

(** ** Running a driver: binds, assignment, scoring against a vector *)

Lemma bind_Ok_inv {A B : Type} (m : outcome A) (f : A -> outcome B) (b : B) :
  m ≫= f = Ok b -> exists a : A, m = Ok a /\ f a = Ok b.
Proof.
  destruct m as [a| |]; simpl; intros H; try discriminate. exists a. auto.
Qed.

Ltac inv_bind H :=
  let a := fresh "a" in
  let Ha := fresh "Ha" in
  apply bind_Ok_inv in H as (a & Ha & H).

Ltac inv_bind_as H a Ha := apply bind_Ok_inv in H as (a & Ha & H).

Lemma broadcast_to_length (n : nat) (v : ndarray Qc) (l : list Qc) :
  broadcast_to n v = Ok l -> length l = n.
Proof.
  assert (Hvec : forall u : list Qc,
    (if (length u =? n)%nat then Ok u
     else match u with [a] => Ok (replicate n a) | _ => Raise ValueError end) = Ok l ->
    length l = n).
  { intros u. destruct (Nat.eqb_spec (length u) n) as [E|E].
    - intros [= <-]. exact E.
    - destruct u as [|a [|b u]]; try discriminate.
      intros [= <-]. apply length_replicate. }
  destruct v as [a|u|m rows]; simpl.
  - intros [= <-]. apply length_replicate.
  - apply Hvec.
  - destruct rows as [|u [|u' rows]]; try discriminate. apply Hvec.
Qed.

Lemma broadcast_to_vec (n : nat) (u : list Qc) :
  length u = n -> broadcast_to n (Vec u) = Ok u.
Proof. intros <-. simpl. rewrite Nat.eqb_refl. reflexivity. Qed.

Lemma bdim_one_r (n : nat) : bdim n 1 = Some n.
Proof.
  unfold bdim. destruct (Nat.eqb_spec n 1) as [->|_]; reflexivity.
Qed.

Lemma zip_with_replicate_rows {A B C : Type} (f : A -> B -> C)
    (p : list (list A)) (v : list B) :
  zip_with (zip_with f) p (replicate (length p) v) = map (fun r => zip_with f r v) p.
Proof.
  induction p as [|r p IH]; simpl; [reflexivity|]. rewrite IH. reflexivity.
Qed.

(** Scoring the rows of a matrix against one vector of observations,
    as both drivers do. *)
Lemma ssr_matrix_vector (m : nat) (p : list (list Qc)) (v : list Qc) :
  wf_rows m p -> length v = m ->
  ssr (Mat m p) (Vec v)
  = Ok (Mat m (map (fun r => zip_with Qcminus r v) p),
        Vec (map (fun r => sumsq (zip_with Qcminus r v)) p)).
Proof.
  intros Hp Hv. unfold ssr, np_subtract. unfold broadcast2 at 1.
  cbn [nrows ncols ndim as2d]. rewrite Hv, bdim_one_r, bdim_same.
  rewrite map_stretch_wf by exact Hp. rewrite stretch_id by reflexivity.
  cbn [map]. rewrite (stretch_id m v Hv). cbn [stretch].
  rewrite zip_with_replicate_rows. cbn [Nat.max of2d mbind outcome_bind].
  set (R := map (fun r => zip_with Qcminus r v) p).
  assert (HR : wf_rows m R).
  { subst R. unfold wf_rows. rewrite List.Forall_map.
    eapply List.Forall_impl; [|exact Hp]. intros r Hr. cbn beta in Hr |- *.
    rewrite length_zip_with. lia. }
  unfold np_multiply. rewrite broadcast2_same_shape by (assumption || reflexivity).
  cbn [mbind outcome_bind np_sum_axis1]. do 3 f_equal.
  rewrite map_sum_squares. subst R. rewrite List.map_map. reflexivity.
Qed.

(** ** The fixed-step driver *)

Lemma getrow_Ok_inv (N : nat) (rows : list (list Qc)) (i : nat) (y : ndarray Qc) :
  getrow (Mat N rows) i = Ok y -> exists yi, y = Vec yi /\ rows !! i = Some yi.
Proof.
  simpl. destruct (rows !! i) as [yi|]; intros [= <-]. exists yi. auto.
Qed.

Lemma setrow_Ok_inv (N : nat) (rows : list (list Qc)) (j : nat) (v x : ndarray Qc) :
  setrow (Mat N rows) j v = Ok x ->
  exists y', (j < length rows)%nat /\ broadcast_to N v = Ok y' /\ x = Mat N (<[j:=y']> rows).
Proof.
  simpl. destruct (Nat.ltb_spec j (length rows)) as [Hj|Hj]; [|discriminate].
  intros H. inv_bind H. injection H as <-. exists a. auto.
Qed.

Lemma wf_rows_insert (N : nat) (rows : list (list Qc)) (j : nat) (y : list Qc) :
  wf_rows N rows -> length y = N -> wf_rows N (<[j:=y]> rows).
Proof. intros Hr Hy. apply Forall_insert; assumption. Qed.

(** One pass of the loop from index [i]: every row up to [i] is kept,
    and every later row is the value of one [rk4] step taken from the
    row before it at the observed time of that row. *)
Lemma rk4_loop_inv (rk4 : rk4_fn) (N M : nat) (dt : Qc)
    (args : list (ndarray Qc)) (obsT : list Qc) :
  forall (ts : list Qc) (i : nat) (rows : list (list Qc)) (r : ndarray Qc),
    length rows = M -> wf_rows N rows -> (i + length ts = M)%nat ->
    (forall k t, ts !! k = Some t -> obsT !! (i + k)%nat = Some t) ->
    rk4_loop rk4 M dt args i ts (Mat N rows) = Ok r ->
    exists rows',
      r = Mat N rows' /\ length rows' = M /\ wf_rows N rows' /\
      (forall k, (k <= i)%nat -> rows' !! k = rows !! k) /\
      (forall j, (i <= j)%nat -> (S j < M)%nat ->
         exists tj yj v yj',
           obsT !! j = Some tj /\ rows' !! j = Some yj /\ rows' !! S j = Some yj' /\
           rk4 tj (Vec yj) dt interceptionModel args = Ok v /\
           broadcast_to N v = Ok yj').
Proof.
  induction ts as [|t ts IH]; intros i rows r Hlen Hwf HM Hts H.
  - simpl in H. injection H as <-. exists rows. repeat split; try assumption.
    intros j Hij Hj. simpl in HM. lia.
  - cbn [rk4_loop] in H. rewrite Nat.add_1_r in H.
    destruct (Nat.leb_spec M (S i)) as [HMi|HMi].
    + injection H as <-. exists rows. repeat split; try assumption.
      intros j Hij Hj. lia.
    + inv_bind H. apply getrow_Ok_inv in Ha as (yi & -> & Hyi).
      inv_bind H. rename a into v, Ha into Hv.
      inv_bind H. apply setrow_Ok_inv in Ha as (y' & HSi & Hy' & ->).
      apply IH in H as (rows' & -> & Hlen' & Hwf' & Hkeep & Hstep).
      * exists rows'. repeat split; try assumption.
        -- intros k Hk. rewrite Hkeep by lia. apply list_lookup_insert_ne. lia.
        -- intros j Hij Hj. destruct (Nat.eq_dec j i) as [->|Hne].
           ++ exists t, yi, v, y'. repeat split; try assumption.
              ** rewrite <- (Nat.add_0_r i). apply Hts. reflexivity.
              ** rewrite Hkeep by lia. rewrite list_lookup_insert_ne by lia. exact Hyi.
              ** rewrite Hkeep by lia. apply list_lookup_insert_eq. exact HSi.
           ++ apply Hstep; lia.
      * rewrite length_insert. exact Hlen.
      * apply wf_rows_insert; [exact Hwf|]. eapply broadcast_to_length, Hy'.
      * simpl in HM. lia.
      * intros k t' Hk. replace (S i + k)%nat with (i + S k)%nat by lia.
        apply Hts. exact Hk.
Qed.

Lemma rk4_loop_total (rk4 : rk4_fn) (N M : nat) (dt : Qc) (args : list (ndarray Qc)) :
  (forall t y, length y = N ->
     exists v y', rk4 t (Vec y) dt interceptionModel args = Ok v /\
                  broadcast_to N v = Ok y') ->
  forall (ts : list Qc) (i : nat) (rows : list (list Qc)),
    length rows = M -> wf_rows N rows ->
    exists r, rk4_loop rk4 M dt args i ts (Mat N rows) = Ok r.
Proof.
  intros Hrk. induction ts as [|t ts IH]; intros i rows Hlen Hwf.
  - eexists. reflexivity.
  - cbn [rk4_loop]. rewrite Nat.add_1_r.
    destruct (Nat.leb_spec M (S i)) as [HMi|HMi]; [eexists; reflexivity|].
    destruct (lookup_lt_is_Some_2 rows i) as [yi Hyi]; [lia|].
    cbn [getrow]. rewrite Hyi. cbn [mbind outcome_bind].
    destruct (Hrk t yi) as (v & y' & -> & Hy').
    { unfold wf_rows in Hwf. rewrite Forall_lookup in Hwf. exact (Hwf i yi Hyi). }
    cbn [mbind outcome_bind setrow].
    destruct (Nat.ltb_spec (S i) (length rows)) as [_|]; [|lia].
    rewrite Hy'. cbn [mbind outcome_bind].
    apply IH.
    + rewrite length_insert. exact Hlen.
    + apply wf_rows_insert; [exact Hwf|]. eapply broadcast_to_length, Hy'.
Qed.

Lemma getcol_Mat (m k : nat) (rows : list (list Qc)) :
  (k < m)%nat -> getcol (Mat m rows) k = Ok (Vec (column k rows)).
Proof.
  intros H. unfold getcol. destruct (Nat.ltb_spec k m); [reflexivity | lia].
Qed.

Lemma length_column (k : nat) (rows : list (list Qc)) :
  length (column k rows) = length rows.
Proof. apply List.length_map. Qed.

Lemma nd_size_vec {A : Type} (l : list A) : nd_size (Vec l) = length l.
Proof. unfold nd_size. simpl. lia. Qed.

Lemma wf_rows_transpose (N : nat) (rows : list (list Qc)) :
  wf_rows (length rows) (map (fun k => column k rows) (seq 0 N)).
Proof.
  unfold wf_rows. rewrite List.Forall_map. apply List.Forall_forall.
  intros k _. apply length_column.
Qed.

Lemma seeded_shape (M N : nat) (s0 : Qc) :
  length (seeded M N s0) = M /\ wf_rows N (seeded M N s0).
Proof.
  unfold seeded. split.
  - rewrite length_insert. apply length_replicate.
  - apply wf_rows_insert; [|apply length_replicate].
    apply Forall_replicate, length_replicate.
Qed.

Lemma interceptCostRK4_unfold (rk4 : rk4_fn) (cp co : nat)
    (pars obs : list (list Qc)) (dt s0 : Qc) :
  (4 <= cp)%nat -> (4 <= co)%nat -> column 1 obs !! 0%nat = Some s0 ->
  interceptCostRK4 rk4 (Mat cp pars) (mkArgs (Mat co obs) dt)
  = simStor ← rk4_loop rk4 (length obs) dt (ensemble_args pars obs) 0
                (column 0 obs) (Mat (length pars) (seeded (length obs) (length pars) s0));
    cost ← ssr (transpose simStor) (Vec (column 1 obs));
    Ok (transpose simStor, cost).
Proof.
  intros Hcp Hco Hs0. unfold interceptCostRK4. cbn [Args0 Args1].
  rewrite !getcol_Mat by lia. cbn [mbind outcome_bind getitem].
  rewrite Hs0. cbn [mbind outcome_bind].
  rewrite !nd_size_vec, !length_column. unfold np_zeros. cbn [setrow broadcast_to].
  rewrite length_replicate.
  assert (HM : (0 < length obs)%nat).
  { apply lookup_lt_Some in Hs0. rewrite length_column in Hs0. exact Hs0. }
  destruct (Nat.ltb_spec 0 (length obs)) as [_|]; [|lia].
  cbn [mbind outcome_bind as2d concat]. rewrite app_nil_r. reflexivity.
Qed.

Lemma ssr_transpose_vector (N : nat) (rows : list (list Qc)) (v : list Qc) :
  length v = length rows ->
  exists res c,
    ssr (transpose (Mat N rows)) (Vec v) = Ok (res, Vec c) /\ length c = N.
Proof.
  intros Hv. cbn [transpose].
  rewrite ssr_matrix_vector by (apply wf_rows_transpose || exact Hv).
  eexists _, _. split; [reflexivity|].
  rewrite !List.length_map. apply List.length_seq.
Qed.

(** Runs of the fixed-step driver that return.  For an ensemble of [N]
    parameter rows and [M >= 1] observations, whenever the driver
    returns: the returned matrix is the transpose of an [M] by [N]
    matrix [rows] whose row 0 holds the first observed storage for every
    member; for every observation interval [j] row [j + 1] is the value
    of exactly one [rk4] step taken from row [j] at the observed time
    [obsTime[j]]; the returned matrix is [N] by [M] and the SSR vector
    has [N] entries.  And the driver does return whenever every [rk4]
    step returns a value that fits a row. *)
Theorem interceptCostRK4_invariants (rk4 : rk4_fn) (cp co : nat)
    (pars obs : list (list Qc)) (dt : Qc) :
  (4 <= cp)%nat -> (4 <= co)%nat -> (1 <= length obs)%nat ->
  let N := length pars in
  let M := length obs in
  let args := ensemble_args pars obs in
  (forall sim cost,
      interceptCostRK4 rk4 (Mat cp pars) (mkArgs (Mat co obs) dt) = Ok (sim, cost) ->
      exists rows res c s0,
        sim = transpose (Mat N rows) /\ cost = (res, Vec c) /\
        length rows = M /\ wf_rows N rows /\
        column 1 obs !! 0%nat = Some s0 /\ rows !! 0%nat = Some (replicate N s0) /\
        (forall j, (S j < M)%nat ->
           exists tj yj v yj',
             column 0 obs !! j = Some tj /\
             rows !! j = Some yj /\ rows !! S j = Some yj' /\
             rk4 tj (Vec yj) dt interceptionModel args = Ok v /\
             broadcast_to N v = Ok yj') /\
        nrows sim = N /\ ncols sim = M /\ length c = N)
  /\ ((forall t y, length y = N ->
         exists v y', rk4 t (Vec y) dt interceptionModel args = Ok v /\
                      broadcast_to N v = Ok y') ->
      exists sim cost,
        interceptCostRK4 rk4 (Mat cp pars) (mkArgs (Mat co obs) dt) = Ok (sim, cost)).
Proof.
  intros Hcp Hco HM N M args.
  destruct (lookup_lt_is_Some_2 (column 1 obs) 0) as [s0 Hs0];
    [rewrite length_column; lia|].
  rewrite (interceptCostRK4_unfold rk4 cp co pars obs dt s0 Hcp Hco Hs0).
  fold N M args.
  destruct (seeded_shape M N s0) as [Hlen0 Hwf0].
  assert (Hinv : forall r,
    rk4_loop rk4 M dt args 0 (column 0 obs) (Mat N (seeded M N s0)) = Ok r ->
    exists rows',
      r = Mat N rows' /\ length rows' = M /\ wf_rows N rows' /\
      (forall k, (k <= 0)%nat -> rows' !! k = seeded M N s0 !! k) /\
      (forall j, (0 <= j)%nat -> (S j < M)%nat ->
         exists tj yj v yj',
           column 0 obs !! j = Some tj /\ rows' !! j = Some yj /\
           rows' !! S j = Some yj' /\
           rk4 tj (Vec yj) dt interceptionModel args = Ok v /\
           broadcast_to N v = Ok yj')).
  { intros r. apply rk4_loop_inv; try assumption.
    - rewrite length_column. reflexivity.
    - intros k t Hk. exact Hk. }
  split.
  - intros sim cost H. inv_bind H.
    destruct (Hinv a Ha) as (rows & -> & Hlen & Hwf & Hkeep & Hstep).
    destruct (ssr_transpose_vector N rows (column 1 obs)) as (res & c & Hssr & Hc);
      [rewrite length_column, Hlen; reflexivity|].
    rewrite Hssr in H. cbn [mbind outcome_bind] in H. injection H as <- <-.
    exists rows, res, c, s0. repeat split; try assumption.
    + rewrite Hkeep by lia. unfold seeded. apply list_lookup_insert_eq.
      rewrite length_replicate. exact HM.
    + intros j Hj. apply Hstep; [lia | exact Hj].
    + cbn [transpose nrows]. rewrite List.length_map. apply List.length_seq.
  - intros Hrk.
    destruct (rk4_loop_total rk4 N M dt args Hrk (column 0 obs) 0 (seeded M N s0) Hlen0 Hwf0)
      as [r Hr].
    rewrite Hr. cbn [mbind outcome_bind].
    destruct (Hinv r Hr) as (rows & -> & Hlen & _).
    destruct (ssr_transpose_vector N rows (column 1 obs)) as (res & c & Hssr & Hc);
      [rewrite length_column, Hlen; reflexivity|].
    rewrite Hssr. cbn [mbind outcome_bind]. eexists _, _. reflexivity.
Qed.

(** ** The adaptive driver *)

Lemma setcol_Ok_inv (N : nat) (rows : list (list Qc)) (i : nat) (v x : ndarray Qc) :
  setcol (Mat N rows) i v = Ok x ->
  exists c, (i < N)%nat /\ length c = length rows /\
            x = Mat N (zip_with (fun r a => <[i:=a]> r) rows c).
Proof.
  simpl. destruct (Nat.ltb_spec i N) as [Hi|Hi]; [|discriminate].
  intros H. inv_bind H. injection H as <-. exists a.
  split; [exact Hi|]. split; [eapply broadcast_to_length, Ha | reflexivity].
Qed.

Lemma setcol_rows (N i : nat) : forall (rows : list (list Qc)) (c : list Qc),
  length c = length rows ->
  let rows' := zip_with (fun r a => <[i:=a]> r) rows c in
  length rows' = length rows /\
  (wf_rows N rows -> wf_rows N rows') /\
  (forall k, k <> i -> column k rows' = column k rows).
Proof.
  induction rows as [|r rows IH]; intros [|a c] Hlen; simpl in Hlen; try discriminate.
  - cbn. split; [reflexivity|]. split; [intros _; constructor | reflexivity].
  - injection Hlen as Hlen. destruct (IH c Hlen) as (H1 & H2 & H3).
    cbn [zip_with]. cbv zeta. repeat split.
    + cbn [length]. f_equal. exact H1.
    + intros Hwf. inversion Hwf; subst. constructor.
      * rewrite length_insert. reflexivity.
      * apply H2. assumption.
    + intros k Hk. unfold column. cbn [map]. f_equal.
      * rewrite list_lookup_insert_ne by congruence. reflexivity.
      * apply H3, Hk.
Qed.

Section AdaptiveInvariants.
Variable rkf45 : rkf45_fn.
Variables (fuel : nat) (A B C D obsTime obsStor obsPrec obsEvap : ndarray Qc).
Variable args : Args.
Variable N : nat.

(** One member: one column of [obsSims] is written and one
    trajectory is appended. *)
Lemma member_inv (i : nat) (rows : list (list Qc)) (sims : list (ndarray Qc))
    (st' : ndarray Qc * list (ndarray Qc)) :
  member rkf45 fuel A B C D obsTime obsStor obsPrec obsEvap args i (Mat N rows, sims)
  = Ok st' ->
  exists rows' simn,
    st' = (Mat N rows', sims ++ [simn]) /\
    length rows' = length rows /\
    (wf_rows N rows -> wf_rows N rows') /\
    (forall k, k <> i -> column k rows' = column k rows).
Proof.
  unfold member. intros H.
  do 6 inv_bind H. inv_bind_as H simn Hsimn.
  inv_bind_as H v Hv. inv_bind_as H obsSims' Hset.
  apply setcol_Ok_inv in Hset as (c & _ & Hc & ->).
  injection H as <-.
  destruct (setcol_rows N i rows c Hc) as (H1 & H2 & H3).
  exists (zip_with (fun r a => <[i:=a]> r) rows c), simn.
  repeat split; assumption.
Qed.

(** The loop over the members. *)
Lemma for_range_inv (idx : list nat) :
  forall (rows : list (list Qc)) (sims : list (ndarray Qc))
         (st' : ndarray Qc * list (ndarray Qc)),
    for_range (member rkf45 fuel A B C D obsTime obsStor obsPrec obsEvap args)
      idx (Mat N rows, sims) = Ok st' ->
    exists rows' sims',
      st' = (Mat N rows', sims') /\
      length rows' = length rows /\
      (wf_rows N rows -> wf_rows N rows') /\
      length sims' = (length sims + length idx)%nat /\
      (forall k, k ∉ idx -> column k rows' = column k rows).
Proof.
  induction idx as [|i idx IH]; intros rows sims st' H.
  - simpl in H. injection H as <-. exists rows, sims.
    repeat split; [auto | simpl; lia].
  - cbn [for_range] in H. inv_bind H.
    apply member_inv in Ha as (rows1 & simn & -> & Hlen1 & Hwf1 & Hcol1).
    apply IH in H as (rows' & sims' & -> & Hlen' & Hwf' & Hsims' & Hcol').
    exists rows', sims'. repeat split.
    + congruence.
    + auto.
    + rewrite Hsims', length_app. simpl. lia.
    + intros k Hk. rewrite not_elem_of_cons in Hk. destruct Hk as [Hki Hk].
      rewrite Hcol' by exact Hk. apply Hcol1, Hki.
Qed.
End AdaptiveInvariants.

Lemma column_zeros (k M N : nat) :
  column k (replicate M (replicate N 0)) = replicate M 0.
Proof.
  unfold column. induction M as [|M IH]; simpl; [reflexivity|].
  rewrite IH. f_equal.
  destruct (replicate N (0 : Qc) !! k) as [x|] eqn:E; [|reflexivity].
  apply lookup_replicate in E as [-> _]. reflexivity.
Qed.

(** C1, what the code does.  Whenever the adaptive driver returns for
    an ensemble of [N] parameter rows, the list of raw trajectories has
    [N - 1] entries, not [N]: the loop runs over [range(A.size-1)] and
    never reaches the last member.  The cost vector has [N] entries,
    but for [N >= 1] the last one is the SSR of the untouched all-zero
    column of [obsSims] against the observations, whatever the last
    member's parameters. *)
Theorem interceptionModel_CF_skips_last_member (rkf45 : rkf45_fn) (fuel cp co : nat)
    (pars obs : list (list Qc)) (dt : Qc)
    (sims : list (ndarray Qc)) (cost : ndarray Qc * ndarray Qc) :
  (4 <= cp)%nat -> (4 <= co)%nat ->
  interceptionModel_CF rkf45 fuel (Mat cp pars) (mkArgs (Mat co obs) dt)
  = Ok (sims, cost) ->
  let N := length pars in
  length sims = (N - 1)%nat /\
  exists res c,
    cost = (res, Vec c) /\ length c = N /\
    ((1 <= N)%nat ->
     c !! (N - 1)%nat
     = Some (sumsq (zip_with Qcminus (replicate (length obs) 0) (column 1 obs)))).
Proof.
  intros Hcp Hco H N. unfold interceptionModel_CF in H. cbn [Args0] in H.
  rewrite !getcol_Mat in H by lia. cbn [mbind outcome_bind] in H.
  rewrite !nd_size_vec, !length_column in H. fold N in H. unfold np_zeros in H.
  inv_bind H. destruct a as [obsSims sims'].
  apply for_range_inv in Ha as (rows & sims'' & [= -> ->] & Hlen & Hwf & Hsims & Hcol).
  rewrite length_replicate in Hlen.
  inv_bind H. injection H as <- <-.
  cbn [transpose] in Ha. rewrite ssr_matrix_vector in Ha;
    [|apply wf_rows_transpose | rewrite length_column; congruence].
  injection Ha as <-. split.
  - rewrite Hsims, List.length_seq. simpl. lia.
  - eexists _, _. split; [reflexivity|]. split.
    + rewrite !List.length_map. apply List.length_seq.
    + intros HN. rewrite List.map_map.
      change (map ?f ?l) with (f <$> l). rewrite list_lookup_fmap.
      rewrite lookup_seq_lt by lia. cbn [fmap option_fmap option_map Nat.add].
      rewrite Hcol, column_zeros; [reflexivity|].
      rewrite list_elem_of_In, List.in_seq. lia.
Qed.

Lemma interceptionModel_CF_skips_last_member_witness :
  exists sims cost,
    interceptionModel_CF euler_rkf45 10 (Mat 4 demo_pars2) (mkArgs (Mat 4 demo_obs) (qz 1))
    = Ok (sims, cost) /\
    let N := length demo_pars2 in
    length sims = (N - 1)%nat /\
    exists res c,
      cost = (res, Vec c) /\ length c = N /\
      ((1 <= N)%nat ->
       c !! (N - 1)%nat
       = Some (sumsq (zip_with Qcminus (replicate (length demo_obs) 0)
                                       (column 1 demo_obs)))).
Proof.
  eexists _, _. split; [vm_compute; reflexivity|].
  apply (interceptionModel_CF_skips_last_member euler_rkf45 10 4 4
           demo_pars2 demo_obs (qz 1)); [lia | lia | vm_compute; reflexivity].
Defined.

(** The adaptive driver on two members: one trajectory is returned, and
    the second cost is 1 + 4 + 9, the squares of the observed storage. *)
Example interceptionModel_CF_demo :
  exists simn res,
    interceptionModel_CF euler_rkf45 10 (Mat 4 demo_pars2) (mkArgs (Mat 4 demo_obs) (qz 1))
    = Ok ([simn], (res, Vec (qs [5; 14]%Z))).
Proof. eexists _, _. vm_compute. reflexivity. Qed.

(** The fixed-step driver on one member returns; on two members the
    first evaluation of the dynamics raises ValueError. *)
Example interceptCostRK4_demo :
  (exists sim cost,
      interceptCostRK4 rk4_classic (Mat 4 demo_pars1) (mkArgs (Mat 4 demo_obs) (qz 1))
      = Ok (sim, cost))
  /\ interceptCostRK4 rk4_classic (Mat 4 demo_pars2) (mkArgs (Mat 4 demo_obs) (qz 1))
     = Raise ValueError.
Proof.
  split; [eexists _, _|]; vm_compute; reflexivity.
Qed.

Lemma interceptCostRK4_invariants_witness :
  let rk4 := rk4_classic in
  let pars := demo_pars1 in
  let obs := demo_obs in
  let dt := qz 1 in
  let N := length pars in
  let M := length obs in
  let args := ensemble_args pars obs in
  (forall sim cost,
      interceptCostRK4 rk4 (Mat 4 pars) (mkArgs (Mat 4 obs) dt) = Ok (sim, cost) ->
      exists rows res c s0,
        sim = transpose (Mat N rows) /\ cost = (res, Vec c) /\
        length rows = M /\ wf_rows N rows /\
        column 1 obs !! 0%nat = Some s0 /\ rows !! 0%nat = Some (replicate N s0) /\
        (forall j, (S j < M)%nat ->
           exists tj yj v yj',
             column 0 obs !! j = Some tj /\
             rows !! j = Some yj /\ rows !! S j = Some yj' /\
             rk4 tj (Vec yj) dt interceptionModel args = Ok v /\
             broadcast_to N v = Ok yj') /\
        nrows sim = N /\ ncols sim = M /\ length c = N)
  /\ ((forall t y, length y = N ->
         exists v y', rk4 t (Vec y) dt interceptionModel args = Ok v /\
                      broadcast_to N v = Ok y') ->
      exists sim cost,
        interceptCostRK4 rk4 (Mat 4 pars) (mkArgs (Mat 4 obs) dt) = Ok (sim, cost)).
Proof.
  intros rk4 pars obs dt.
  apply (interceptCostRK4_invariants rk4 4 4 pars obs dt); [lia | lia | simpl; lia].
Defined.

(** * Further properties of the code *)

(** ** The cost evaluator *)

Lemma sumsq_cons (a : Qc) (l : list Qc) : sumsq (a :: l) = a * a + sumsq l.
Proof. reflexivity. Qed.

(** X3. Scoring the rows of a matrix against one vector of observations
    (what both drivers do) is scoring it against the matrix that repeats
    the vector for every member. *)
Theorem ssr_vector_is_repeated_for_each_member (m : nat) (p : list (list Qc)) (v : list Qc) :
  wf_rows m p -> length v = m ->
  ssr (Mat m p) (Vec v) = ssr (Mat m p) (Mat m (replicate (length p) v)).
Proof.
  intros Hp Hv.
  rewrite ssr_matrix_vector by assumption.
  rewrite ssr_same_shape;
    [| exact Hp | apply Forall_replicate, Hv | rewrite length_replicate; reflexivity].
  unfold residuals. rewrite zip_with_replicate_rows, List.map_map. reflexivity.
Qed.

Lemma ssr_vector_is_repeated_for_each_member_witness :
  let p := [qs [1;2;3]%Z; qs [4;5;6]%Z] in
  let v := qs [1;1;1]%Z in
  ssr (Mat 3 p) (Vec v) = ssr (Mat 3 p) (Mat 3 (replicate (length p) v)).
Proof.
  intros p v.
  apply (ssr_vector_is_repeated_for_each_member 3 p v); [repeat constructor | reflexivity].
Defined.

(** ** The storage dynamics *)

Lemma Qcmax_nonpos (S : Qc) : S <= 0 -> Qcmax S 0 = 0.
Proof.
  intros H. unfold Qcmax. apply Qcleb_le in H. rewrite H. reflexivity.
Qed.

Lemma Qcmax_idem (a : Qc) : Qcmax (Qcmax a 0) 0 = Qcmax a 0.
Proof.
  unfold Qcmax. destruct (Qcleb a 0) eqn:E.
  - replace (Qcleb 0 0) with true by (symmetry; apply Qcleb_le, Qcle_refl). reflexivity.
  - rewrite E. reflexivity.
Qed.

Lemma np_maximum0_idem (S : ndarray Qc) : np_maximum0 (np_maximum0 S) = np_maximum0 S.
Proof.
  assert (H : forall l : list Qc,
    map (fun a => Qcmax a 0) (map (fun a => Qcmax a 0) l) = map (fun a => Qcmax a 0) l).
  { intros l. rewrite List.map_map. apply List.map_ext. intros a. apply Qcmax_idem. }
  destruct S as [a|l|m rows]; unfold np_maximum0; cbn [nd_map].
  - rewrite Qcmax_idem. reflexivity.
  - rewrite H. reflexivity.
  - f_equal. rewrite List.map_map. apply List.map_ext. intros l. apply H.
Qed.

(** X4. The dynamics see the storage only through [np.maximum(S, 0)]:
    clamping the state beforehand changes nothing, and a scalar storage
    at or below zero gives the rate of change of storage zero. *)
Theorem interceptionModel_clamps_storage (t S T Pr E0 a b c d : ndarray Qc) :
  interceptionModel t S T Pr E0 a b c d
  = interceptionModel t (np_maximum0 S) T Pr E0 a b c d
  /\ forall s : Qc, s <= 0 ->
       interceptionModel t (Scalar s) T Pr E0 a b c d
       = interceptionModel t (Scalar 0) T Pr E0 a b c d.
Proof.
  split.
  - unfold interceptionModel. rewrite np_maximum0_idem. reflexivity.
  - intros s Hs. unfold interceptionModel, np_maximum0. cbn [nd_map].
    rewrite (Qcmax_nonpos s Hs), (Qcmax_nonpos 0 (Qcle_refl 0)). reflexivity.
Qed.

(** X5. With scalar state and parameters and the clamped storage at or
    below the capacity [5 c], no drainage is computed: the rate of
    change is the same for every drainage parameter [b]. *)
Theorem no_drainage_at_or_below_capacity (t S a b b' c d : Qc) (T Pr E0 : list Qc) :
  T <> [] -> length Pr = length T -> length E0 = length T ->
  Qcmax S 0 <= qz 5 * c ->
  interceptionModel (Scalar t) (Scalar S) (Vec T) (Vec Pr) (Vec E0)
    (Scalar a) (Scalar b) (Scalar c) (Scalar d)
  = interceptionModel (Scalar t) (Scalar S) (Vec T) (Vec Pr) (Vec E0)
      (Scalar a) (Scalar b') (Scalar c) (Scalar d).
Proof.
  intros Hne HPr HE0 Hcap.
  rewrite !interceptionModel_scalar by assumption. cbv zeta.
  apply Qcltb_ge in Hcap. rewrite Hcap. reflexivity.
Qed.

Lemma no_drainage_at_or_below_capacity_witness :
  interceptionModel (Scalar (qz 1)) (Scalar (qz 5))
    (Vec (qs [0;2]%Z)) (Vec (qs [0;4]%Z)) (Vec (qs [2;2]%Z))
    (Scalar (qz 1)) (Scalar (qz 0)) (Scalar (qz 1)) (Scalar (qz 1))
  = interceptionModel (Scalar (qz 1)) (Scalar (qz 5))
      (Vec (qs [0;2]%Z)) (Vec (qs [0;4]%Z)) (Vec (qs [2;2]%Z))
      (Scalar (qz 1)) (Scalar (qz 7)) (Scalar (qz 1)) (Scalar (qz 1)).
Proof.
  apply (no_drainage_at_or_below_capacity (qz 1) (qz 5) (qz 1) (qz 0) (qz 7) (qz 1) (qz 1)
           (qs [0;2]%Z) (qs [0;4]%Z) (qs [2;2]%Z));
    [discriminate | reflexivity | reflexivity | discriminate].
Defined.

(** X6. Outside the recorded span the forcing is held at the edge:
    before the first recorded time it is the first recorded value, after
    the last recorded time the last one, each floored at zero. *)
Theorem forcing_holds_edge_values (T F : list Qc) (t t0 f0 : Qc) :
  increasing T -> length F = length T ->
  T !! 0%nat = Some t0 -> F !! 0%nat = Some f0 ->
  (t < t0 -> forcing (Scalar t) (Vec T) (Vec F) = Ok (Scalar (Qcmax f0 0)))
  /\ (List.last T t0 < t ->
      forcing (Scalar t) (Vec T) (Vec F) = Ok (Scalar (Qcmax (List.last F f0) 0))).
Proof.
  intros Hinc Hlen HT HF.
  assert (Hne : T <> []) by (intros ->; discriminate).
  rewrite forcing_scalar by assumption.
  pose proof (increasing_le_last T Hinc 0 t0 t0 HT) as Hlast.
  destruct T as [|x T]; [discriminate|]. destruct F as [|y F]; [discriminate|].
  simpl in HT, HF. injection HT as ->. injection HF as ->.
  unfold interp1. cbn [zip zip_with]. split; intros Ht.
  - replace (Qcltb (List.last (t0 :: T) t0) t) with false.
    + apply Qcltb_lt in Ht. rewrite Ht. reflexivity.
    + symmetry. apply Qcltb_ge. apply Qclt_le_weak.
      eapply Qclt_le_trans; eassumption.
  - apply Qcltb_lt in Ht. rewrite Ht. reflexivity.
Qed.

Lemma forcing_holds_edge_values_witness :
  let T := qs [0;2;4]%Z in
  let F := qs [1;-3;5]%Z in
  (qz (-1) < qz 0 ->
   forcing (Scalar (qz (-1))) (Vec T) (Vec F) = Ok (Scalar (Qcmax (qz 1) 0)))
  /\ (List.last T (qz 0) < qz (-1) ->
      forcing (Scalar (qz (-1))) (Vec T) (Vec F)
      = Ok (Scalar (Qcmax (List.last F (qz 1)) 0))).
Proof.
  intros T F.
  apply (forcing_holds_edge_values T F (qz (-1)) (qz 0) (qz 1));
    [repeat constructor | reflexivity | reflexivity | reflexivity].
Defined.

Lemma np_interp_bad_series (x : ndarray Qc) (T F : list Qc) :
  T = [] \/ length F <> length T -> np_interp x (Vec T) (Vec F) = Raise ValueError.
Proof.
  intros H. unfold np_interp. destruct T as [|a T]; [reflexivity|].
  destruct H as [H|H]; [discriminate|].
  cbn [length Nat.eqb]. destruct (Nat.eqb_spec (length F) (S (length T))) as [E|E];
    [contradiction | reflexivity].
Qed.

(** X7. A forcing series with no record, or with a precipitation or
    potential-evaporation column whose length differs from the number of
    times, makes the dynamics raise ValueError, whatever the other
    arguments. *)
Theorem interceptionModel_rejects_bad_series
    (t S a b c d : ndarray Qc) (T Pr E0 : list Qc) :
  T = [] \/ length Pr <> length T \/ length E0 <> length T ->
  interceptionModel t S (Vec T) (Vec Pr) (Vec E0) a b c d = Raise ValueError.
Proof.
  intros H. unfold interceptionModel, transform, forcing.
  destruct (Nat.eq_dec (length Pr) (length T)) as [EPr|EPr].
  - destruct T as [|x T].
    + rewrite (np_interp_bad_series t [] Pr) by (left; reflexivity). reflexivity.
    + rewrite (np_interp_vec t (x :: T) Pr) by (discriminate || exact EPr).
      cbn [mbind outcome_bind].
      rewrite np_interp_bad_series; [reflexivity|].
      right. destruct H as [H|[H|H]]; [discriminate | contradiction | exact H].
  - rewrite (np_interp_bad_series t T Pr) by (right; exact EPr). reflexivity.
Qed.

Lemma interceptionModel_rejects_bad_series_witness :
  interceptionModel (Scalar (qz 1)) (Scalar (qz 5))
    (Vec (qs [0;2]%Z)) (Vec (qs [0;4]%Z)) (Vec (qs [2]%Z))
    (Scalar (qz 1)) (Scalar (qz 0)) (Scalar (qz 1)) (Scalar (qz 1))
  = Raise ValueError.
Proof.
  apply (interceptionModel_rejects_bad_series (Scalar (qz 1)) (Scalar (qz 5))
           (Scalar (qz 1)) (Scalar (qz 0)) (Scalar (qz 1)) (Scalar (qz 1))
           (qs [0;2]%Z) (qs [0;4]%Z) (qs [2]%Z)).
  right. right. discriminate.
Defined.

Lemma broadcast2_vec1 {A B C : Type} (f : A -> B -> C) (a : A) (b : B) :
  broadcast2 f (Vec [a]) (Vec [b]) = Ok (Vec [f a b]).
Proof. reflexivity. Qed.

Lemma broadcast2_vec1_scalar {A B C : Type} (f : A -> B -> C) (a : A) (b : B) :
  broadcast2 f (Vec [a]) (Scalar b) = Ok (Vec [f a b]).
Proof. reflexivity. Qed.

(** X8. For an ensemble of one member the vectorised evaluation agrees
    with the scalar one: on width-1 state and parameters the dynamics
    return the width-1 vector holding the scalar result. *)
Theorem single_member_vector_agrees_with_scalar
    (t S a b c d : Qc) (T Pr E0 : list Qc) (r : float_val) :
  T <> [] -> length Pr = length T -> length E0 = length T ->
  interceptionModel (Scalar t) (Scalar S) (Vec T) (Vec Pr) (Vec E0)
    (Scalar a) (Scalar b) (Scalar c) (Scalar d) = Ok (Scalar r) ->
  interceptionModel (Scalar t) (Vec [S]) (Vec T) (Vec Pr) (Vec E0)
    (Vec [a]) (Vec [b]) (Vec [c]) (Vec [d]) = Ok (Vec [r]).
Proof.
  intros Hne HPr HE0. rewrite interceptionModel_scalar by assumption. cbv zeta.
  intros [= <-].
  unfold interceptionModel, transform. cbn [nd_map np_maximum0 map].
  rewrite !forcing_scalar by assumption. cbn [mbind outcome_bind].
  rewrite drainage_single. unfold np_multiply, np_subtract.
  rewrite !broadcast2_vec1_scalar, broadcast2_vec1. cbn [mbind outcome_bind].
  destruct (Qcltb (qz 5 * c) (Qcmax S 0)); cbn [mbind outcome_bind];
    rewrite ?broadcast2_vec1, ?broadcast2_vec1_scalar; cbn [mbind outcome_bind];
    rewrite ?broadcast2_vec1; reflexivity.
Qed.

Lemma single_member_vector_agrees_with_scalar_witness :
  exists r,
    interceptionModel (Scalar (qz 1)) (Vec [qz 6])
      (Vec (qs [0;2]%Z)) (Vec (qs [0;4]%Z)) (Vec (qs [2;2]%Z))
      (Vec [qz 1]) (Vec [qz 0]) (Vec [qz 1]) (Vec [qz 1]) = Ok (Vec [r]).
Proof.
  eexists.
  apply (single_member_vector_agrees_with_scalar (qz 1) (qz 6) (qz 1) (qz 0) (qz 1) (qz 1)
           (qs [0;2]%Z) (qs [0;4]%Z) (qs [2;2]%Z));
    [discriminate | reflexivity | reflexivity | vm_compute; reflexivity].
Defined.





(** ** The fixed-step driver *)

(** A returned run of the fixed-step driver, split into its loop and
    its scoring. *)
Lemma interceptCostRK4_Ok_inv (rk4 : rk4_fn) (cp co : nat)
    (pars obs : list (list Qc)) (dt s0 : Qc)
    (sim : ndarray Qc) (cost : ndarray Qc * ndarray Qc) :
  (4 <= cp)%nat -> (4 <= co)%nat -> column 1 obs !! 0%nat = Some s0 ->
  interceptCostRK4 rk4 (Mat cp pars) (mkArgs (Mat co obs) dt) = Ok (sim, cost) ->
  exists rows,
    rk4_loop rk4 (length obs) dt (ensemble_args pars obs) 0 (column 0 obs)
      (Mat (length pars) (seeded (length obs) (length pars) s0))
    = Ok (Mat (length pars) rows) /\
    length rows = length obs /\ wf_rows (length pars) rows /\
    sim = transpose (Mat (length pars) rows) /\
    ssr (transpose (Mat (length pars) rows)) (Vec (column 1 obs)) = Ok cost.
Proof.
  intros Hcp Hco Hs0 H.
  rewrite (interceptCostRK4_unfold rk4 cp co pars obs dt s0 Hcp Hco Hs0) in H.
  inv_bind_as H r Hr. inv_bind_as H cst Hc. injection H as <- <-.
  destruct (seeded_shape (length obs) (length pars) s0) as [Hlen0 Hwf0].
  pose proof Hr as Hr'.
  apply (rk4_loop_inv rk4 (length pars) (length obs) dt _ (column 0 obs)) in Hr'
    as (rows & -> & Hlen & Hwf & _); try assumption.
  - exists rows. repeat split; assumption.
  - rewrite length_column. reflexivity.
  - intros k t Hk. exact Hk.
Qed.

Lemma interceptCostRK4_IndexError_cases (rk4 : rk4_fn) (cp co : nat)
    (pars obs : list (list Qc)) (dt : Qc) :
  (cp < 4)%nat \/ (co < 4)%nat \/ obs = [] ->
  interceptCostRK4 rk4 (Mat cp pars) (mkArgs (Mat co obs) dt) = Raise IndexError.
Proof.
  intros H. unfold interceptCostRK4. cbn [Args0 Args1].
  destruct (Nat.lt_ge_cases cp 4) as [Hcp|Hcp].
  { destruct cp as [|[|[|[|cp]]]]; [reflexivity.. | lia]. }
  rewrite !(getcol_Mat cp) by lia. cbn [mbind outcome_bind].
  destruct (Nat.lt_ge_cases co 4) as [Hco|Hco].
  { destruct co as [|[|[|[|co]]]]; [reflexivity.. | lia]. }
  rewrite !(getcol_Mat co) by lia. cbn [mbind outcome_bind].
  destruct H as [H | [H | ->]]; [lia | lia | reflexivity].
Qed.

(** X10. The fixed-step driver raises IndexError when the parameter
    table or the observation table has fewer than four columns, when
    the observation table has no row (there is no first observed
    storage to start from), and when the parameters are not a 2-d
    table. *)
Theorem interceptCostRK4_index_errors (rk4 : rk4_fn) (cp co : nat)
    (pars obs : list (list Qc)) (dt : Qc) :
  (cp < 4)%nat \/ (co < 4)%nat \/ obs = [] ->
  interceptCostRK4 rk4 (Mat cp pars) (mkArgs (Mat co obs) dt) = Raise IndexError
  /\ forall (v : list Qc) (args : Args),
       interceptCostRK4 rk4 (Vec v) args = Raise IndexError.
Proof.
  intros H. split; [apply interceptCostRK4_IndexError_cases, H | reflexivity].
Qed.

Lemma interceptCostRK4_index_errors_witness :
  interceptCostRK4 rk4_classic (Mat 4 demo_pars1) (mkArgs (Mat 4 []) (qz 1))
  = Raise IndexError
  /\ forall (v : list Qc) (args : Args),
       interceptCostRK4 rk4_classic (Vec v) args = Raise IndexError.
Proof.
  apply (interceptCostRK4_index_errors rk4_classic 4 4 demo_pars1 [] (qz 1)).
  right. right. reflexivity.
Defined.

Lemma map_replicate {A B : Type} (f : A -> B) (n : nat) (x : A) :
  map f (replicate n x) = replicate n (f x).
Proof. induction n as [|n IH]; simpl; [reflexivity|]. rewrite IH. reflexivity. Qed.

Lemma map_const_seq {B : Type} (f : nat -> B) (y : B) (n : nat) : forall start : nat,
  (forall k, (start <= k < start + n)%nat -> f k = y) ->
  map f (seq start n) = replicate n y.
Proof.
  induction n as [|n IH]; intros start H; [reflexivity|].
  simpl. rewrite H by lia. f_equal. apply IH. intros k Hk. apply H. lia.
Qed.

(** X11. With a single observation the fixed-step driver takes no
    integration step at all, whatever the integrator: every member's
    trajectory is the observed storage alone, every residual and every
    cost is zero. *)
Theorem interceptCostRK4_single_observation (rk4 : rk4_fn) (cp co : nat)
    (pars : list (list Qc)) (row : list Qc) (dt : Qc) :
  (4 <= cp)%nat -> (4 <= co)%nat ->
  let N := length pars in
  let s0 := default 0 (row !! 1%nat) in
  interceptCostRK4 rk4 (Mat cp pars) (mkArgs (Mat co [row]) dt)
  = Ok (Mat 1 (replicate N [s0]),
        (Mat 1 (replicate N [0]), Vec (replicate N 0))).
Proof.
  intros Hcp Hco N s0.
  rewrite (interceptCostRK4_unfold rk4 cp co pars [row] dt s0 Hcp Hco eq_refl).
  cbn [length column map rk4_loop Nat.add Nat.leb mbind outcome_bind].
  fold N. unfold seeded. cbn [replicate insert list_insert transpose length].
  assert (HT : map (fun k => column k [replicate N s0]) (seq 0 N) = replicate N [s0]).
  { apply map_const_seq. intros k Hk. unfold column. cbn [map].
    rewrite lookup_replicate_2 by lia. reflexivity. }
  rewrite HT.
  rewrite ssr_matrix_vector;
    [| apply Forall_replicate; reflexivity | reflexivity].
  cbn [mbind outcome_bind]. rewrite !map_replicate. cbn [zip_with].
  fold s0.
  replace (s0 - s0) with (0 : Qc) by ring.
  replace (sumsq [0]) with (0 : Qc) by (rewrite sumsq_cons; unfold sumsq; cbn; ring).
  reflexivity.
Qed.

Lemma interceptCostRK4_single_observation_witness :
  let N := length demo_pars2 in
  let s0 := default 0 (qs [0;7;2;2]%Z !! 1%nat) in
  interceptCostRK4 rk4_classic (Mat 4 demo_pars2) (mkArgs (Mat 4 [qs [0;7;2;2]%Z]) (qz 1))
  = Ok (Mat 1 (replicate N [s0]),
        (Mat 1 (replicate N [0]), Vec (replicate N 0))).
Proof.
  apply (interceptCostRK4_single_observation rk4_classic 4 4 demo_pars2
           (qs [0;7;2;2]%Z) (qz 1)); lia.
Defined.

(** X12. The costs of the fixed-step driver are positional: the
    returned matrix holds one trajectory per parameter row, the residual
    matrix holds that trajectory minus the observed storage, and cost
    [k] is the sum of squares of row [k] of the residuals. *)
Theorem interceptCostRK4_costs_positional (rk4 : rk4_fn) (cp co : nat)
    (pars obs : list (list Qc)) (dt : Qc)
    (sim res cost : ndarray Qc) :
  (4 <= cp)%nat -> (4 <= co)%nat ->
  interceptCostRK4 rk4 (Mat cp pars) (mkArgs (Mat co obs) dt) = Ok (sim, (res, cost)) ->
  let obsStor := column 1 obs in
  exists trajs,
    sim = Mat (length obs) trajs /\ length trajs = length pars /\
    res = Mat (length obs) (map (fun r => zip_with Qcminus r obsStor) trajs) /\
    cost = Vec (map (fun r => sumsq (zip_with Qcminus r obsStor)) trajs).
Proof.
  intros Hcp Hco H obsStor.
  destruct (column 1 obs !! 0%nat) as [s0|] eqn:Hs0.
  - apply (interceptCostRK4_Ok_inv rk4 cp co pars obs dt s0) in H
      as (rows & _ & Hlen & _ & -> & Hssr); try assumption.
    cbn [transpose] in *. rewrite Hlen in *.
    rewrite ssr_matrix_vector in Hssr;
      [| rewrite <- Hlen; apply wf_rows_transpose | apply length_column].
    injection Hssr as <- <-. eexists. repeat split.
    rewrite List.length_map. apply List.length_seq.
  - exfalso. apply lookup_ge_None_1 in Hs0. rewrite length_column in Hs0.
    rewrite (interceptCostRK4_IndexError_cases rk4 cp co pars obs dt) in H; [discriminate|].
    right. right. destruct obs; [reflexivity | simpl in Hs0; lia].
Qed.

Lemma interceptCostRK4_costs_positional_witness :
  exists sim res cost,
    interceptCostRK4 rk4_classic (Mat 4 demo_pars1) (mkArgs (Mat 4 demo_obs) (qz 1))
    = Ok (sim, (res, cost)) /\
    let obsStor := column 1 demo_obs in
    exists trajs,
      sim = Mat (length demo_obs) trajs /\ length trajs = length demo_pars1 /\
      res = Mat (length demo_obs) (map (fun r => zip_with Qcminus r obsStor) trajs) /\
      cost = Vec (map (fun r => sumsq (zip_with Qcminus r obsStor)) trajs).
Proof.
  eexists _, _, _. split; [vm_compute; reflexivity|].
  apply (interceptCostRK4_costs_positional rk4_classic 4 4 demo_pars1 demo_obs (qz 1));
    [lia | lia | vm_compute; reflexivity].
Defined.

(** X13. The observed storage enters a fixed-step run only through its
    first value (the seed) and the scoring: two observation tables with
    the same times, precipitation and potential evaporation and the same
    first storage give the same simulated matrix. *)
Theorem interceptCostRK4_uses_only_first_storage (rk4 : rk4_fn) (cp co : nat)
    (pars obs obs' : list (list Qc)) (dt : Qc)
    (sim : ndarray Qc) (cost : ndarray Qc * ndarray Qc) :
  (4 <= cp)%nat -> (4 <= co)%nat ->
  column 0 obs' = column 0 obs -> column 2 obs' = column 2 obs ->
  column 3 obs' = column 3 obs ->
  column 1 obs' !! 0%nat = column 1 obs !! 0%nat ->
  interceptCostRK4 rk4 (Mat cp pars) (mkArgs (Mat co obs) dt) = Ok (sim, cost) ->
  exists cost',
    interceptCostRK4 rk4 (Mat cp pars) (mkArgs (Mat co obs') dt) = Ok (sim, cost').
Proof.
  intros Hcp Hco H0 H2 H3 H1 H.
  assert (Hlen : length obs' = length obs).
  { rewrite <- (length_column 0 obs'), H0. apply length_column. }
  destruct (column 1 obs !! 0%nat) as [s0|] eqn:Hs0.
  - apply (interceptCostRK4_Ok_inv rk4 cp co pars obs dt s0) in H
      as (rows & Hloop & Hrows & _ & -> & _); try assumption.
    rewrite (interceptCostRK4_unfold rk4 cp co pars obs' dt s0 Hcp Hco H1).
    unfold ensemble_args, model_args in *. rewrite H0, H2, H3, Hlen, Hloop.
    cbn [mbind outcome_bind].
    destruct (ssr_transpose_vector (length pars) rows (column 1 obs'))
      as (res & c & -> & _); [rewrite length_column; congruence|].
    eexists. reflexivity.
  - exfalso. apply lookup_ge_None_1 in Hs0. rewrite length_column in Hs0.
    rewrite (interceptCostRK4_IndexError_cases rk4 cp co pars obs dt) in H; [discriminate|].
    right. right. destruct obs; [reflexivity | simpl in Hs0; lia].
Qed.

Lemma interceptCostRK4_uses_only_first_storage_witness :
  let obs' := [qs [0;1;2;2]%Z; qs [1;9;2;2]%Z; qs [2;-4;2;2]%Z] in
  exists sim cost cost',
    interceptCostRK4 rk4_classic (Mat 4 demo_pars1) (mkArgs (Mat 4 demo_obs) (qz 1))
    = Ok (sim, cost) /\
    interceptCostRK4 rk4_classic (Mat 4 demo_pars1) (mkArgs (Mat 4 obs') (qz 1))
    = Ok (sim, cost').
Proof.
  intros obs'.
  assert (H : exists sim cost,
    interceptCostRK4 rk4_classic (Mat 4 demo_pars1) (mkArgs (Mat 4 demo_obs) (qz 1))
    = Ok (sim, cost)) by (eexists _, _; vm_compute; reflexivity).
  destruct H as (sim & cost & H).
  destruct (interceptCostRK4_uses_only_first_storage rk4_classic 4 4 demo_pars1
              demo_obs obs' (qz 1) sim cost) as [cost' H'];
    [lia | lia | reflexivity | reflexivity | reflexivity | reflexivity | exact H |].
  exists sim, cost, cost'. split; assumption.
Defined.

(** X14. The fixed-step driver has no handler: with at least two
    observations, an exception raised by the first integration step
    (taken from the seeded row at the first observed time) is the
    outcome of the whole run. *)
Theorem interceptCostRK4_propagates_step_error (rk4 : rk4_fn) (cp co : nat)
    (pars obs : list (list Qc)) (dt t0 s0 : Qc) (e : exn) :
  (4 <= cp)%nat -> (4 <= co)%nat -> (2 <= length obs)%nat ->
  column 0 obs !! 0%nat = Some t0 -> column 1 obs !! 0%nat = Some s0 ->
  rk4 t0 (Vec (replicate (length pars) s0)) dt interceptionModel (ensemble_args pars obs)
  = Raise e ->
  interceptCostRK4 rk4 (Mat cp pars) (mkArgs (Mat co obs) dt) = Raise e.
Proof.
  intros Hcp Hco HM Ht0 Hs0 Hstep.
  rewrite (interceptCostRK4_unfold rk4 cp co pars obs dt s0 Hcp Hco Hs0).
  destruct (column 0 obs) as [|t ts] eqn:Ecol; [discriminate|].
  simpl in Ht0. injection Ht0 as ->.
  cbn [rk4_loop Nat.add].
  destruct (Nat.leb_spec (length obs) 1) as [Hle|_]; [lia|].
  assert (Hrow : seeded (length obs) (length pars) s0 !! 0%nat
                 = Some (replicate (length pars) s0)).
  { unfold seeded. apply list_lookup_insert_eq. rewrite length_replicate. lia. }
  cbn [getrow]. rewrite Hrow.
  cbn [mbind outcome_bind]. rewrite Hstep. reflexivity.
Qed.

Lemma interceptCostRK4_propagates_step_error_witness :
  interceptCostRK4 rk4_classic (Mat 4 demo_pars2) (mkArgs (Mat 4 demo_obs) (qz 1))
  = Raise ValueError.
Proof.
  apply (interceptCostRK4_propagates_step_error rk4_classic 4 4 demo_pars2 demo_obs
           (qz 1) (qz 0) (qz 1) ValueError);
    [lia | lia | simpl; lia | reflexivity | reflexivity | vm_compute; reflexivity].
Defined.

(** ** The adaptive driver *)

Lemma qn_S (n : nat) : qn (S n) = qn n + 1.
Proof.
  unfold qn, qz. apply Qc_is_canon. cbn [this Qcplus Q2Qc].
  rewrite !Qred_correct, Nat2Z.inj_succ. unfold Z.succ.
  rewrite inject_Z_plus. reflexivity.
Qed.

Lemma qn_0 : qn 0 = 0.
Proof. apply Qc_is_canon. reflexivity. Qed.

Lemma getitem_last (obsTime : list Qc) (tend : Qc) :
  obsTime !! (length obsTime - 1)%nat = Some tend ->
  getitem (Vec obsTime) (nd_size (Vec obsTime) - 1) = Ok tend.
Proof. intros H. rewrite nd_size_vec. cbn [getitem]. rewrite H. reflexivity. Qed.

(** X15. The [while] loop of the adaptive driver ends when the
    integrator makes progress: if every call returns and advances the
    time by at least [h], then [n] calls are enough from any time [t]
    with [tend < t + n h], where [tend] is the last observed time. *)
Theorem rkf45_loop_terminates (rkf45 : rkf45_fn) (obsTime : list Qc)
    (args : list (ndarray Qc)) (h tend : Qc) :
  obsTime !! (length obsTime - 1)%nat = Some tend ->
  (forall t s dt, exists dt' t' s',
      rkf45 t s dt interceptionModel args = Ok (dt', t', s') /\ t + h <= t') ->
  forall (n : nat) (dt t s : Qc) (simn : ndarray Qc),
    tend < t + qn n * h ->
    exists r, rkf45_loop rkf45 n (Vec obsTime) args dt t s simn = Ok r.
Proof.
  intros Hend Hstep. induction n as [|n IH]; intros dt t s simn Hn.
  - cbn [rkf45_loop]. rewrite (getitem_last obsTime tend Hend).
    cbn [mbind outcome_bind].
    replace (Qcleb t tend) with false; [eexists; reflexivity|].
    symmetry. apply not_true_iff_false. rewrite Qcleb_le.
    apply Qclt_not_le. replace t with (t + qn 0 * h) by (rewrite qn_0; ring). exact Hn.
  - cbn [rkf45_loop]. rewrite (getitem_last obsTime tend Hend).
    cbn [mbind outcome_bind].
    destruct (Qcleb t tend); [|eexists; reflexivity].
    destruct (Hstep t s dt) as (dt' & t' & s' & -> & Ht').
    cbn [mbind outcome_bind]. apply IH.
    eapply Qclt_le_trans; [exact Hn|].
    rewrite qn_S. replace (t + (qn n + 1) * h) with ((t + h) + qn n * h) by ring.
    apply Qcplus_le_compat; [exact Ht' | apply Qcle_refl].
Qed.

Lemma rkf45_loop_terminates_witness :
  let obsTime := qs [0;1;2]%Z in
  let args := model_args demo_obs (Scalar (qz 1)) (Scalar (qz 0)) (Scalar (qz 1)) (Scalar (qz 0)) in
  let rkf45 : rkf45_fn := fun t s dt mf args => Ok (dt, t + qz 1, s) in
  exists r, rkf45_loop rkf45 3 (Vec obsTime) args (qz 1) (qz 0) (qz 1) (Vec [qz 0; qz 1]) = Ok r.
Proof.
  intros obsTime args rkf45.
  apply (rkf45_loop_terminates rkf45 obsTime args (qz 1) (qz 2)).
  - reflexivity.
  - intros t s dt. exists dt, (t + qz 1), s. split; [reflexivity | apply Qcle_refl].
  - reflexivity.
Defined.

Lemma rkf45_loop_shape (rkf45 : rkf45_fn) (obsTime : list Qc)
    (args : list (ndarray Qc)) (tend : Qc) :
  obsTime !! (length obsTime - 1)%nat = Some tend ->
  forall (fuel : nat) (dt t s : Qc) (X r : ndarray Qc),
    rkf45_loop rkf45 fuel (Vec obsTime) args dt t s X = Ok r ->
    (tend < t /\ r = X) \/
    (t <= tend /\
     exists pts : list (Qc * Qc),
       pts <> [] /\
       r = Mat 2 (as2d X ++ map (fun p => [p.1; p.2]) pts) /\
       tend < (List.last pts (t, s)).1).
Proof.
  intros Hend. induction fuel as [|fuel IH]; intros dt t s X r H.
  - cbn [rkf45_loop] in H. rewrite (getitem_last obsTime tend Hend) in H.
    cbn [mbind outcome_bind] in H. destruct (Qcleb t tend) eqn:E; [discriminate|].
    injection H as <-. left. split; [|reflexivity].
    apply Qcnot_le_lt. rewrite <- Qcleb_le, E. discriminate.
  - cbn [rkf45_loop] in H. rewrite (getitem_last obsTime tend Hend) in H.
    cbn [mbind outcome_bind] in H. destruct (Qcleb t tend) eqn:E.
    + right. split; [apply Qcleb_le, E|].
      inv_bind_as H step Hstep. destruct step as [[dt' t'] s'].
      apply IH in H as [[Ht' ->] | (Ht' & pts & Hne & -> & Hlast)].
      * exists [(t', s')]. split; [discriminate|]. split; [reflexivity | exact Ht'].
      * exists ((t', s') :: pts). split; [discriminate|]. split.
        -- unfold np_vstack. cbn [as2d length map]. rewrite <- app_assoc. reflexivity.
        -- rewrite last_cons_default. exact Hlast.
    + injection H as <-. left. split; [|reflexivity].
      apply Qcnot_le_lt. rewrite <- Qcleb_le, E. discriminate.
Qed.

(** X16. A trajectory the adaptive loop returns, started at the first
    observation [(t0, s0)] with [t0] not after the last observed time
    [tend], begins with the seed [(t0, s0)], holds at least one
    integrated point, and ends strictly after [tend]: the loop runs
    while [tend >= t], so it also steps from [t = tend].  Started after
    [tend] it returns the bare 1-d seed. *)
Theorem rkf45_loop_overshoots_last_observation (rkf45 : rkf45_fn) (obsTime : list Qc)
    (args : list (ndarray Qc)) (tend : Qc) (fuel : nat) (dt t0 s0 : Qc) (r : ndarray Qc) :
  obsTime !! (length obsTime - 1)%nat = Some tend ->
  rkf45_loop rkf45 fuel (Vec obsTime) args dt t0 s0 (Vec [t0; s0]) = Ok r ->
  (t0 <= tend ->
   exists pts, pts <> [] /\ r = trajectory ((t0, s0) :: pts) /\
               tend < (List.last pts (t0, s0)).1)
  /\ (tend < t0 -> r = Vec [t0; s0]).
Proof.
  intros Hend H.
  apply (rkf45_loop_shape rkf45 obsTime args tend Hend) in H
    as [[Ht ->] | (Ht & pts & Hne & -> & Hlast)].
  - split; [|reflexivity]. intros Hle. exfalso. exact (Qcle_not_lt _ _ Hle Ht).
  - split.
    + intros _. exists pts. repeat split; assumption.
    + intros Hlt. exfalso. exact (Qcle_not_lt _ _ Ht Hlt).
Qed.

Lemma rkf45_loop_overshoots_last_observation_witness :
  let obsTime := qs [0;1;2]%Z in
  let args := model_args demo_obs (Scalar (qz 1)) (Scalar (qz 0)) (Scalar (qz 1)) (Scalar (qz 0)) in
  exists r,
    rkf45_loop euler_rkf45 10 (Vec obsTime) args (qz 1) (qz 0) (qz 1) (Vec [qz 0; qz 1]) = Ok r /\
    (qz 0 <= qz 2 ->
     exists pts, pts <> [] /\ r = trajectory ((qz 0, qz 1) :: pts) /\
                 qz 2 < (List.last pts (qz 0, qz 1)).1)
    /\ (qz 2 < qz 0 -> r = Vec [qz 0; qz 1]).
Proof.
  intros obsTime args. eexists. split; [vm_compute; reflexivity|].
  apply (rkf45_loop_overshoots_last_observation euler_rkf45 obsTime args (qz 2) 10 (qz 1));
    [reflexivity | vm_compute; reflexivity].
Defined.

Lemma zip_with_minus_zeros (v : list Qc) :
  zip_with Qcminus (replicate (length v) 0) v = map (fun o => 0 - o) v.
Proof. induction v as [|a v IH]; simpl; [reflexivity|]. rewrite IH. reflexivity. Qed.

Lemma transpose_zeros (M N : nat) :
  transpose (np_zeros M N) = Mat M (replicate N (replicate M 0)).
Proof.
  unfold np_zeros. cbn [transpose]. rewrite length_replicate. f_equal.
  apply map_const_seq. intros k _. apply column_zeros.
Qed.

(** X17. An ensemble of at most one parameter row is never integrated
    by the adaptive driver: for every integrator, fuel and observation
    table it returns no trajectory, and scores the all-zero matrix, so
    that each residual is minus the observed storage. *)
Theorem interceptionModel_CF_single_row_not_integrated (rkf45 : rkf45_fn)
    (fuel cp co : nat) (pars obs : list (list Qc)) (dt : Qc) :
  (4 <= cp)%nat -> (4 <= co)%nat -> (length pars <= 1)%nat ->
  let N := length pars in
  let miss := map (fun o => 0 - o) (column 1 obs) in
  interceptionModel_CF rkf45 fuel (Mat cp pars) (mkArgs (Mat co obs) dt)
  = Ok ([], (Mat (length obs) (replicate N miss), Vec (replicate N (sumsq miss)))).
Proof.
  intros Hcp Hco HN N miss. unfold interceptionModel_CF. cbn [Args0].
  rewrite !getcol_Mat by lia. cbn [mbind outcome_bind].
  rewrite !nd_size_vec, !length_column. fold N.
  replace (N - 1)%nat with 0%nat by lia. cbn [seq for_range mbind outcome_bind].
  rewrite transpose_zeros.
  rewrite ssr_matrix_vector;
    [| apply Forall_replicate, length_replicate | apply length_column].
  cbn [mbind outcome_bind]. rewrite !map_replicate.
  rewrite <- (length_column 1 obs), zip_with_minus_zeros. reflexivity.
Qed.

Lemma interceptionModel_CF_single_row_not_integrated_witness :
  let N := length demo_pars1 in
  let miss := map (fun o => 0 - o) (column 1 demo_obs) in
  interceptionModel_CF euler_rkf45 0 (Mat 4 demo_pars1) (mkArgs (Mat 4 demo_obs) (qz 1))
  = Ok ([], (Mat (length demo_obs) (replicate N miss), Vec (replicate N (sumsq miss)))).
Proof.
  apply (interceptionModel_CF_single_row_not_integrated euler_rkf45 0 4 4
           demo_pars1 demo_obs (qz 1)); simpl; lia.
Defined.

Lemma seq_0_pred_cons (N : nat) : (2 <= N)%nat -> seq 0 (N - 1) = 0%nat :: seq 1 (N - 2).
Proof.
  intros H. destruct N as [|[|N]]; try lia. cbn [Nat.sub seq].
  rewrite Nat.sub_0_r. reflexivity.
Qed.

(** X18. The adaptive driver raises IndexError when the parameter
    table or the observation table has fewer than four columns, and,
    for an ensemble of at least two rows, when the observation table has
    no row. *)
Theorem interceptionModel_CF_index_errors (rkf45 : rkf45_fn)
    (fuel cp co : nat) (pars obs : list (list Qc)) (dt : Qc) :
  (cp < 4)%nat \/ (co < 4)%nat \/ (obs = [] /\ (2 <= length pars)%nat) ->
  interceptionModel_CF rkf45 fuel (Mat cp pars) (mkArgs (Mat co obs) dt)
  = Raise IndexError.
Proof.
  intros H. unfold interceptionModel_CF. cbn [Args0].
  destruct (Nat.lt_ge_cases cp 4) as [Hcp|Hcp].
  { destruct cp as [|[|[|[|cp]]]]; [reflexivity.. | lia]. }
  rewrite !(getcol_Mat cp) by lia. cbn [mbind outcome_bind].
  destruct (Nat.lt_ge_cases co 4) as [Hco|Hco].
  { destruct co as [|[|[|[|co]]]]; [reflexivity.. | lia]. }
  rewrite !(getcol_Mat co) by lia. cbn [mbind outcome_bind].
  destruct H as [H | [H | [-> HN]]]; [lia | lia |].
  rewrite !nd_size_vec, !length_column, (seq_0_pred_cons _ HN). reflexivity.
Qed.

Lemma interceptionModel_CF_index_errors_witness :
  interceptionModel_CF euler_rkf45 10 (Mat 4 demo_pars2) (mkArgs (Mat 4 []) (qz 1))
  = Raise IndexError.
Proof.
  apply (interceptionModel_CF_index_errors euler_rkf45 10 4 4 demo_pars2 [] (qz 1)).
  right. right. split; [reflexivity | simpl; lia].
Defined.

Lemma getitem_Some (l : list Qc) (i : nat) (x : Qc) :
  l !! i = Some x -> getitem (Vec l) i = Ok x.
Proof. intros H. cbn [getitem]. rewrite H. reflexivity. Qed.

Lemma member_reversed_span (rkf45 : rkf45_fn) (fuel : nat)
    (pars obs : list (list Qc)) (args : Args) (t0 tend : Qc)
    (st : ndarray Qc * list (ndarray Qc)) :
  (1 <= length pars)%nat ->
  column 0 obs !! 0%nat = Some t0 ->
  column 0 obs !! (length obs - 1)%nat = Some tend ->
  tend < t0 ->
  member rkf45 fuel (Vec (column 0 pars)) (Vec (column 1 pars))
    (Vec (column 2 pars)) (Vec (column 3 pars)) (Vec (column 0 obs))
    (Vec (column 1 obs)) (Vec (column 2 obs)) (Vec (column 3 obs)) args 0 st
  = Raise IndexError.
Proof.
  intros HN Ht0 Htend Hlt. unfold member. destruct st as [obsSims sims].
  destruct (column 1 obs !! 0%nat) as [s0|] eqn:Hs0;
    [|apply lookup_ge_None_1 in Hs0; apply lookup_lt_Some in Ht0;
      rewrite length_column in *; lia].
  assert (Hcol : forall k, exists x, column k pars !! 0%nat = Some x).
  { intros k. apply lookup_lt_is_Some_2. rewrite length_column. lia. }
  destruct (Hcol 0%nat) as [a Ha], (Hcol 1%nat) as [b Hb],
           (Hcol 2%nat) as [c Hc], (Hcol 3%nat) as [d Hd].
  rewrite (getitem_Some _ _ _ Ht0). cbn [mbind outcome_bind].
  rewrite (getitem_Some _ _ _ Hs0). cbn [mbind outcome_bind].
  rewrite (getitem_Some _ _ _ Ha). cbn [mbind outcome_bind].
  rewrite (getitem_Some _ _ _ Hb). cbn [mbind outcome_bind].
  rewrite (getitem_Some _ _ _ Hc). cbn [mbind outcome_bind].
  rewrite (getitem_Some _ _ _ Hd). cbn [mbind outcome_bind].
  assert (Hloop : forall margs dt,
    rkf45_loop rkf45 fuel (Vec (column 0 obs)) margs dt t0 s0 (Vec [t0; s0])
    = Ok (Vec [t0; s0])).
  { intros margs dt.
    assert (Hg : getitem (Vec (column 0 obs)) (nd_size (Vec (column 0 obs)) - 1) = Ok tend).
    { apply getitem_last. rewrite length_column. exact Htend. }
    assert (Hle : Qcleb t0 tend = false).
    { apply not_true_iff_false. rewrite Qcleb_le. apply Qclt_not_le, Hlt. }
    destruct fuel; cbn [rkf45_loop]; rewrite Hg; cbn [mbind outcome_bind];
      rewrite Hle; reflexivity. }
  rewrite Hloop. reflexivity.
Qed.

(** X19. If the last observed time is before the first one, the loop
    of the adaptive driver's first member never runs, its trajectory
    stays the 1-d seed [[t, s]], and slicing it as a table raises
    IndexError: that is the outcome of the driver for every ensemble of
    at least two rows. *)
Theorem interceptionModel_CF_reversed_span (rkf45 : rkf45_fn)
    (fuel cp co : nat) (pars obs : list (list Qc)) (dt t0 tend : Qc) :
  (4 <= cp)%nat -> (4 <= co)%nat -> (2 <= length pars)%nat ->
  column 0 obs !! 0%nat = Some t0 ->
  column 0 obs !! (length obs - 1)%nat = Some tend ->
  tend < t0 ->
  interceptionModel_CF rkf45 fuel (Mat cp pars) (mkArgs (Mat co obs) dt)
  = Raise IndexError.
Proof.
  intros Hcp Hco HN Ht0 Htend Hlt. unfold interceptionModel_CF. cbn [Args0].
  rewrite !getcol_Mat by lia. cbn [mbind outcome_bind].
  rewrite !nd_size_vec, !length_column, (seq_0_pred_cons _ HN).
  cbn [for_range].
  rewrite (member_reversed_span rkf45 fuel pars obs _ t0 tend) by (assumption || lia).
  reflexivity.
Qed.

Lemma interceptionModel_CF_reversed_span_witness :
  let obs := [qs [5;1;2;2]%Z; qs [3;2;2;2]%Z] in
  interceptionModel_CF euler_rkf45 10 (Mat 4 demo_pars2) (mkArgs (Mat 4 obs) (qz 1))
  = Raise IndexError.
Proof.
  intros obs.
  apply (interceptionModel_CF_reversed_span euler_rkf45 10 4 4 demo_pars2 obs
           (qz 1) (qz 5) (qz 3));
    [lia | lia | simpl; lia | reflexivity | reflexivity | reflexivity].
Defined.

Lemma resample_shape (obsTime : list Qc) (simn v : ndarray Qc) :
  resample (Vec obsTime) simn = Ok v ->
  exists l, v = Vec l /\ length l = length obsTime.
Proof.
  unfold resample. intros H. inv_bind_as H simTime HT. inv_bind_as H simStor HS.
  unfold np_interp in H. destruct simTime as [|xs|]; try discriminate.
  destruct simStor as [|fs|]; try discriminate.
  destruct (length xs =? 0)%nat; [discriminate|].
  destruct (negb (length fs =? length xs)%nat); [discriminate|].
  injection H as <-. cbn [nd_map]. eexists. split; [reflexivity|].
  apply List.length_map.
Qed.

(** X20. Whenever the resampler returns on a 1-d grid of observation
    times, it returns one storage value per observation time; and it
    raises IndexError on a trajectory that is still the 1-d seed. *)
Theorem resample_one_value_per_observation (obsTime : list Qc) (simn v : ndarray Qc) :
  resample (Vec obsTime) simn = Ok v ->
  (exists l, v = Vec l /\ length l = length obsTime)
  /\ forall t s : Qc, resample (Vec obsTime) (Vec [t; s]) = Raise IndexError.
Proof.
  intros H. split; [exact (resample_shape obsTime simn v H) | reflexivity].
Qed.

Lemma resample_one_value_per_observation_witness :
  exists v,
    resample (Vec (qs [0;1;2]%Z)) (trajectory [(qz 0, qz 1); (qz 3, qz 7)]) = Ok v /\
    (exists l, v = Vec l /\ length l = length (qs [0;1;2]%Z))
    /\ forall t s : Qc, resample (Vec (qs [0;1;2]%Z)) (Vec [t; s]) = Raise IndexError.
Proof.
  eexists. split; [vm_compute; reflexivity|].
  apply (resample_one_value_per_observation (qs [0;1;2]%Z)
           (trajectory [(qz 0, qz 1); (qz 3, qz 7)])).
  vm_compute. reflexivity.
Defined.

Lemma column_setcol_same (N i : nat) : forall (rows : list (list Qc)) (c : list Qc),
  wf_rows N rows -> (i < N)%nat -> length c = length rows ->
  column i (zip_with (fun r a => <[i:=a]> r) rows c) = c.
Proof.
  induction rows as [|r rows IH]; intros [|a c] Hwf Hi Hlen; simpl in Hlen;
    try discriminate; [reflexivity|].
  inversion Hwf; subst. unfold column. cbn [zip_with map]. f_equal.
  - rewrite list_lookup_insert_eq by lia. reflexivity.
  - apply IH; [assumption | assumption | lia].
Qed.

(** One member, in full: the column written is the resampled
    trajectory that is appended. *)
Lemma member_inv_full (rkf45 : rkf45_fn) (fuel : nat)
    (A B C D obsStor obsPrec obsEvap : ndarray Qc) (obsTime : list Qc) (args : Args)
    (N i : nat) (rows : list (list Qc)) (sims : list (ndarray Qc))
    (st' : ndarray Qc * list (ndarray Qc)) :
  wf_rows N rows -> length rows = length obsTime ->
  member rkf45 fuel A B C D (Vec obsTime) obsStor obsPrec obsEvap args i (Mat N rows, sims)
  = Ok st' ->
  exists rows' simn v,
    st' = (Mat N rows', sims ++ [simn]) /\
    length rows' = length rows /\ wf_rows N rows' /\
    resample (Vec obsTime) simn = Ok (Vec v) /\
    column i rows' = v /\
    (forall k, k <> i -> column k rows' = column k rows).
Proof.
  intros Hwf Hlen H. unfold member in H.
  do 6 inv_bind H. inv_bind_as H simn Hsimn.
  inv_bind_as H v Hv. inv_bind_as H obsSims' Hset.
  injection H as <-.
  destruct (resample_shape obsTime simn v Hv) as (l & -> & Hl).
  cbn [setcol] in Hset. destruct (Nat.ltb_spec i N) as [Hi|]; [|discriminate].
  rewrite broadcast_to_vec in Hset by congruence.
  cbn [mbind outcome_bind] in Hset. injection Hset as <-.
  destruct (setcol_rows N i rows l) as (H1 & H2 & H3); [congruence|].
  exists (zip_with (fun r a => <[i:=a]> r) rows l), simn, l.
  repeat split; try assumption.
  - apply H2, Hwf.
  - apply (column_setcol_same N); [assumption | assumption | congruence].
Qed.

Lemma for_range_inv_full (rkf45 : rkf45_fn) (fuel : nat)
    (A B C D obsStor obsPrec obsEvap : ndarray Qc) (obsTime : list Qc) (args : Args)
    (N : nat) (idx : list nat) :
  forall (rows : list (list Qc)) (sims : list (ndarray Qc))
         (st' : ndarray Qc * list (ndarray Qc)),
    NoDup idx -> wf_rows N rows -> length rows = length obsTime ->
    for_range (member rkf45 fuel A B C D (Vec obsTime) obsStor obsPrec obsEvap args)
      idx (Mat N rows, sims) = Ok st' ->
    exists rows' added,
      st' = (Mat N rows', sims ++ added) /\
      length rows' = length rows /\ wf_rows N rows' /\
      length added = length idx /\
      (forall j i, idx !! j = Some i ->
         exists simn v,
           added !! j = Some simn /\
           resample (Vec obsTime) simn = Ok (Vec v) /\
           column i rows' = v).
Proof.
  induction idx as [|i idx IH]; intros rows sims st' Hnd Hwf Hlen H.
  - simpl in H. injection H as <-. exists rows, []. rewrite app_nil_r.
    repeat split; try assumption. intros j i Hj. discriminate.
  - cbn [for_range] in H. inv_bind_as H st1 Hst1.
    apply member_inv_full in Hst1
      as (rows1 & simn & v & -> & Hlen1 & Hwf1 & Hres & Hcol & Hother);
      [|assumption..].
    assert (Hi : i ∉ idx) by (inversion Hnd; assumption).
    assert (Hnd' : NoDup idx) by (inversion Hnd; assumption).
    pose proof H as H'.
    apply IH in H as (rows' & added & -> & Hlen' & Hwf' & Hadd & Hall);
      [|exact Hnd' | assumption | congruence].
    apply (for_range_inv rkf45 fuel A B C D (Vec obsTime) obsStor obsPrec obsEvap args N)
      in H' as (rows'' & sims'' & Heq & _ & _ & _ & Hkeep).
    injection Heq as <- _.
    exists rows', (simn :: added). rewrite <- app_assoc. repeat split.
    + congruence.
    + assumption.
    + simpl. congruence.
    + intros j i' Hj. destruct j as [|j].
      * simpl in Hj. injection Hj as <-. exists simn, v.
        repeat split; [assumption|]. rewrite Hkeep by exact Hi. exact Hcol.
      * simpl in Hj. apply Hall in Hj. exact Hj.
Qed.

(** X21. The costs of the adaptive driver are positional for the
    members it processes: whenever it returns, trajectory [i] of the
    returned list resamples onto the observation times, and cost [i] is
    the sum over those times of the squared difference between the
    resampled value and the observed storage. *)
Theorem interceptionModel_CF_costs_positional (rkf45 : rkf45_fn) (fuel cp co : nat)
    (pars obs : list (list Qc)) (dt : Qc)
    (sims : list (ndarray Qc)) (res cost : ndarray Qc) :
  (4 <= cp)%nat -> (4 <= co)%nat ->
  interceptionModel_CF rkf45 fuel (Mat cp pars) (mkArgs (Mat co obs) dt)
  = Ok (sims, (res, cost)) ->
  exists c,
    cost = Vec c /\
    forall i simn, sims !! i = Some simn ->
      exists v,
        resample (Vec (column 0 obs)) simn = Ok (Vec v) /\
        c !! i = Some (sumsq (zip_with Qcminus v (column 1 obs))).
Proof.
  intros Hcp Hco H. unfold interceptionModel_CF in H. cbn [Args0] in H.
  rewrite !getcol_Mat in H by lia. cbn [mbind outcome_bind] in H.
  rewrite !nd_size_vec, !length_column in H. unfold np_zeros in H.
  inv_bind_as H st Hst. destruct st as [obsSims sims'].
  apply for_range_inv_full in Hst as (rows & added & [= -> ->] & Hlen & Hwf & Hadd & Hall).
  - rewrite length_replicate in Hlen.
    inv_bind_as H cst Hc. injection H as <- ->.
    cbn [transpose] in Hc. rewrite ssr_matrix_vector in Hc;
      [|apply wf_rows_transpose | rewrite length_column; congruence].
    injection Hc as <- <-. eexists. split; [reflexivity|].
    intros i simn Hi. cbn [app] in Hi.
    assert (Hidx : seq 0 (length pars - 1) !! i = Some i).
    { apply lookup_seq. split; [reflexivity|].
      apply lookup_lt_Some in Hi. rewrite Hadd, List.length_seq in Hi. exact Hi. }
    destruct (Hall i i Hidx) as (simn' & v & Hsim & Hres & Hcol).
    rewrite Hi in Hsim. injection Hsim as <-.
    exists v. split; [exact Hres|].
    rewrite List.map_map. change (map ?f ?l) with (f <$> l).
    rewrite list_lookup_fmap.
    rewrite lookup_seq_lt by (apply lookup_seq in Hidx; lia).
    cbn [fmap option_fmap option_map Nat.add]. rewrite Hcol. reflexivity.
  - apply NoDup_seq.
  - apply Forall_replicate, length_replicate.
  - rewrite length_replicate, length_column. reflexivity.
Qed.

Lemma interceptionModel_CF_costs_positional_witness :
  exists sims res cost,
    interceptionModel_CF euler_rkf45 10 (Mat 4 demo_pars2) (mkArgs (Mat 4 demo_obs) (qz 1))
    = Ok (sims, (res, cost)) /\
    exists c,
      cost = Vec c /\
      forall i simn, sims !! i = Some simn ->
        exists v,
          resample (Vec (column 0 demo_obs)) simn = Ok (Vec v) /\
          c !! i = Some (sumsq (zip_with Qcminus v (column 1 demo_obs))).
Proof.
  eexists _, _, _. split; [vm_compute; reflexivity|].
  eapply (interceptionModel_CF_costs_positional euler_rkf45 10 4 4 demo_pars2 demo_obs (qz 1));
    [lia | lia | vm_compute; reflexivity].
Defined.




(** ** Which inputs the cost evaluator scores *)

Lemma broadcast2_low_dim {A B C : Type} (f : A -> B -> C)
    (x : ndarray A) (y : ndarray B) :
  (ndim x < 2)%nat -> (ndim y < 2)%nat ->
  broadcast2 f x y = Raise ValueError \/
  exists z, broadcast2 f x y = Ok z /\ (ndim z < 2)%nat.
Proof.
  intros Hx Hy. destruct x as [a|u|? ?]; [| |simpl in Hx; lia];
    destruct y as [b|v|? ?]; try (simpl in Hy; lia);
    unfold broadcast2; cbn [nrows ncols ndim as2d Nat.max].
  - right. eexists. split; [reflexivity | simpl; lia].
  - rewrite bdim_same. destruct (bdim 1 (length v)); [right | left; reflexivity].
    eexists. split; [reflexivity | simpl; lia].
  - rewrite bdim_same. destruct (bdim (length u) 1); [right | left; reflexivity].
    eexists. split; [reflexivity | simpl; lia].
  - rewrite bdim_same. destruct (bdim (length u) (length v)); [right | left; reflexivity].
    eexists. split; [reflexivity | simpl; lia].
Qed.

Lemma ssr_low_dim (x y : ndarray Qc) :
  (ndim x < 2)%nat -> (ndim y < 2)%nat ->
  ssr x y = Raise AxisError \/ ssr x y = Raise ValueError.
Proof.
  intros Hx Hy. unfold ssr, np_subtract.
  destruct (broadcast2_low_dim Qcminus x y Hx Hy) as [-> | (z & -> & Hz)];
    [right; reflexivity|].
  left. cbn [mbind outcome_bind]. unfold np_multiply.
  destruct z as [a|u|? ?]; [| |simpl in Hz; lia].
  - reflexivity.
  - rewrite broadcast2_vec, bdim_same. reflexivity.
Qed.

Lemma ssr_high_dim (x y : ndarray Qc) (r c : nat) :
  ndim x = 2%nat \/ ndim y = 2%nat ->
  bdim (nrows x) (nrows y) = Some r -> bdim (ncols x) (ncols y) = Some c ->
  exists res s, ssr x y = Ok (res, s).
Proof.
  intros Hnd Hr Hc. unfold ssr, np_subtract. unfold broadcast2 at 1.
  rewrite Hr, Hc.
  assert (Hmax : (ndim x `max` ndim y)%nat = 2%nat).
  { destruct x, y; simpl in *; destruct Hnd; try discriminate; reflexivity. }
  rewrite Hmax. cbn [of2d mbind outcome_bind].
  unfold np_multiply, broadcast2. rewrite !bdim_same.
  cbn [ndim Nat.max of2d mbind outcome_bind np_sum_axis1]. eexists _, _. reflexivity.
Qed.

(** C10, as the code has it.  What [ssr] needs is a two-dimensional
    broadcast, not two two-dimensional inputs.  On two matrices of one
    shape it returns the residual matrix [p - d] and, for each row, the
    sum of its squared residuals.  A 1-d sequence of observations against
    a matrix is scored as well, row by row (this is how both drivers
    call it).  In general [ssr] returns exactly when one input at least
    is 2-d and the shapes broadcast.  Only when both inputs have fewer
    than two dimensions does it fail for want of an axis 1 (or with the
    broadcast error). *)
Theorem ssr_scores_two_dimensional_broadcasts (m : nat)
    (p d : list (list Qc)) (v : list Qc) (x y : ndarray Qc) :
  wf_rows m p -> wf_rows m d -> length p = length d -> length v = m ->
  ssr (Mat m p) (Mat m d)
  = Ok (Mat m (residuals p d), Vec (map sumsq (residuals p d)))
  /\ ssr (Mat m p) (Vec v)
     = Ok (Mat m (map (fun r => zip_with Qcminus r v) p),
           Vec (map (fun r => sumsq (zip_with Qcminus r v)) p))
  /\ ((exists res s, ssr x y = Ok (res, s))
      <-> (ndim x = 2%nat \/ ndim y = 2%nat) /\
          bdim (nrows x) (nrows y) <> None /\ bdim (ncols x) (ncols y) <> None)
  /\ ((ndim x < 2)%nat -> (ndim y < 2)%nat ->
      ssr x y = Raise AxisError \/ ssr x y = Raise ValueError).
Proof.
  intros Hp Hd Hlen Hv. split; [|split; [|split]].
  - apply ssr_same_shape; assumption.
  - apply ssr_matrix_vector; assumption.
  - split.
    + intros (res & s & H). split; [|split].
      * destruct (Nat.lt_ge_cases (ndim x) 2) as [Hx|Hx];
          destruct (Nat.lt_ge_cases (ndim y) 2) as [Hy|Hy].
        -- destruct (ssr_low_dim x y Hx Hy) as [E|E]; rewrite E in H; discriminate.
        -- right. destruct y; simpl in *; lia.
        -- left. destruct x; simpl in *; lia.
        -- left. destruct x; simpl in *; lia.
      * intros E. unfold ssr, np_subtract, broadcast2 in H. rewrite E in H. discriminate.
      * intros E. unfold ssr, np_subtract, broadcast2 in H. rewrite E in H.
        destruct (bdim (nrows x) (nrows y)); discriminate.
    + intros (Hnd & Hr & Hc).
      destruct (bdim (nrows x) (nrows y)) as [r|] eqn:Er; [|contradiction].
      destruct (bdim (ncols x) (ncols y)) as [c|] eqn:Ec; [|contradiction].
      exact (ssr_high_dim x y r c Hnd Er Ec).
  - apply ssr_low_dim.
Qed.

Lemma ssr_scores_two_dimensional_broadcasts_witness :
  let p := [qs [1;2;3]%Z; qs [4;5;6]%Z] in
  let d := [qs [0;2;5]%Z; qs [4;4;4]%Z] in
  let v := qs [1;1;1]%Z in
  let x := Vec (qs [1;2;3]%Z) in
  let y := Vec (qs [3;2;1]%Z) in
  ssr (Mat 3 p) (Mat 3 d)
  = Ok (Mat 3 (residuals p d), Vec (map sumsq (residuals p d)))
  /\ ssr (Mat 3 p) (Vec v)
     = Ok (Mat 3 (map (fun r => zip_with Qcminus r v) p),
           Vec (map (fun r => sumsq (zip_with Qcminus r v)) p))
  /\ ((exists res s, ssr x y = Ok (res, s))
      <-> (ndim x = 2%nat \/ ndim y = 2%nat) /\
          bdim (nrows x) (nrows y) <> None /\ bdim (ncols x) (ncols y) <> None)
  /\ ((ndim x < 2)%nat -> (ndim y < 2)%nat ->
      ssr x y = Raise AxisError \/ ssr x y = Raise ValueError).
Proof.
  intros p d v x y.
  apply (ssr_scores_two_dimensional_broadcasts 3 p d v x y);
    [repeat constructor | repeat constructor | reflexivity | reflexivity].
Defined.

(** C10, counterexample.  One-dimensional inputs are accepted: a 1-d
    sequence of observations against a 2 by 3 matrix, and a flat
    trajectory, not reshaped, against a 1 by 3 matrix of observations. *)
Lemma ssr_accepts_one_dimensional_input :
  ndim (Vec (qs [1;1;1]%Z)) = 1%nat /\
  ssr (Mat 3 [qs [1;2;3]%Z; qs [4;5;6]%Z]) (Vec (qs [1;1;1]%Z))
  = Ok (Mat 3 [qs [0;1;2]%Z; qs [3;4;5]%Z], Vec (qs [5;50]%Z)) /\
  ssr (Vec (qs [1;2;3]%Z)) (Mat 3 [qs [1;1;1]%Z])
  = Ok (Mat 3 [qs [0;1;2]%Z], Vec (qs [5]%Z)).
Proof.
  split; [reflexivity|]. split; vm_compute; reflexivity.
Qed.

(** ** The fixed-step driver on an ensemble *)

(** The dynamics on a state row and parameter columns of width two or
    more: the test [if S>cm] has no truth value. *)
Lemma interceptionModel_ensemble_ValueError (t : Qc) (S a b c d T Pr E0 : list Qc) :
  T <> [] -> length Pr = length T -> length E0 = length T ->
  length c = length S -> (2 <= length S)%nat ->
  interceptionModel (Scalar t) (Vec S) (Vec T) (Vec Pr) (Vec E0)
    (Vec a) (Vec b) (Vec c) (Vec d)
  = Raise ValueError.
Proof.
  intros Hne HPr HE0 Hlen HN.
  unfold interceptionModel, transform. cbn [nd_map np_maximum0].
  rewrite !forcing_scalar by assumption. cbn [mbind outcome_bind].
  assert (HI : exists I, np_multiply (Vec a) (Scalar (Qcmax (interp1 T Pr t) 0)) = Ok I).
  { unfold np_multiply, broadcast2. cbn [nrows ncols]. rewrite bdim_same, bdim_one_r.
    eexists. reflexivity. }
  destruct HI as [I ->]. cbn [mbind outcome_bind].
  rewrite drainage_ensemble; [reflexivity | |].
  - rewrite !List.length_map. exact Hlen.
  - rewrite List.length_map. exact HN.
Qed.

(** The first step of the fixed-step driver: taken at the first
    observed time from the seeded row; what it raises, the driver
    raises. *)
Lemma interceptCostRK4_first_step (rk4 : rk4_fn) (cp co : nat)
    (pars obs : list (list Qc)) (dt t0 s0 : Qc) (e : exn) :
  (4 <= cp)%nat -> (4 <= co)%nat -> (2 <= length obs)%nat ->
  column 0 obs !! 0%nat = Some t0 -> column 1 obs !! 0%nat = Some s0 ->
  rk4 t0 (Vec (replicate (length pars) s0)) dt interceptionModel (ensemble_args pars obs)
  = Raise e ->
  interceptCostRK4 rk4 (Mat cp pars) (mkArgs (Mat co obs) dt) = Raise e.
Proof.
  intros Hcp Hco HM Ht0 Hs0 Hstep.
  rewrite (interceptCostRK4_unfold rk4 cp co pars obs dt s0 Hcp Hco Hs0).
  destruct (column 0 obs) as [|t ts] eqn:Ecol; [discriminate|].
  simpl in Ht0. injection Ht0 as ->.
  cbn [rk4_loop Nat.add].
  destruct (Nat.leb_spec (length obs) 1) as [Hle|_]; [lia|].
  assert (Hrow : seeded (length obs) (length pars) s0 !! 0%nat
                 = Some (replicate (length pars) s0)).
  { unfold seeded. apply list_lookup_insert_eq. rewrite length_replicate. lia. }
  cbn [getrow]. rewrite Hrow.
  cbn [mbind outcome_bind]. rewrite Hstep. reflexivity.
Qed.

(** C4, what the code does on an ensemble.  With at least two
    parameter rows and at least two observations the fixed-step driver
    returns nothing: its first step hands the whole seeded row and the
    whole parameter columns to the dynamics, whose scalar test
    [if S>cm] raises ValueError.  This holds for every integrator that
    lets an exception of [mf(t, y, *args)] at the point it is given
    escape, as one that evaluates the slope there does.  No trajectory
    matrix and no SSR vector come back. *)
Theorem interceptCostRK4_raises_on_ensemble (rk4 : rk4_fn) (cp co : nat)
    (pars obs : list (list Qc)) (dt : Qc) :
  (4 <= cp)%nat -> (4 <= co)%nat ->
  (2 <= length pars)%nat -> (2 <= length obs)%nat ->
  (forall t y h args e,
      call_model interceptionModel (Scalar t) y args = Raise e ->
      rk4 t y h interceptionModel args = Raise e) ->
  interceptCostRK4 rk4 (Mat cp pars) (mkArgs (Mat co obs) dt) = Raise ValueError.
Proof.
  intros Hcp Hco HN HM Hrk.
  destruct (lookup_lt_is_Some_2 (column 0 obs) 0) as [t0 Ht0];
    [rewrite length_column; lia|].
  destruct (lookup_lt_is_Some_2 (column 1 obs) 0) as [s0 Hs0];
    [rewrite length_column; lia|].
  apply (interceptCostRK4_first_step rk4 cp co pars obs dt t0 s0); try assumption.
  apply Hrk. unfold ensemble_args, model_args, call_model.
  apply interceptionModel_ensemble_ValueError.
  - intros E. rewrite E in Ht0. discriminate.
  - rewrite !length_column. reflexivity.
  - rewrite !length_column. reflexivity.
  - rewrite length_column, length_replicate. reflexivity.
  - rewrite length_replicate. exact HN.
Qed.

Lemma interceptCostRK4_raises_on_ensemble_witness :
  interceptCostRK4 rk4_classic (Mat 4 demo_pars2) (mkArgs (Mat 4 demo_obs) (qz 1))
  = Raise ValueError.
Proof.
  apply (interceptCostRK4_raises_on_ensemble rk4_classic 4 4 demo_pars2 demo_obs (qz 1));
    [lia | lia | simpl; lia | simpl; lia |].
  intros t y h args e H. unfold rk4_classic, slope. rewrite H. reflexivity.
Defined.
